(** * dexo-docs: the documentation tracker of [index.js]

    A shallow embedding of the Express application: the cookie parser
    middleware, the [/auth] endpoint, the [requireAuth] gate, the route
    handlers with the SQL statements they issue, the stats aggregator and
    the start-up sequence, followed by the properties proved about them. *)

From Stdlib Require Import ZArith Ascii String List Sorted Permutation Lia.
From stdpp Require Import gmap strings list fin_maps.

Local Open Scope string_scope.
Local Open Scope Z_scope.

(** ** JavaScript strings

    Header values reach the application decoded as Latin-1, one character
    per byte, which is what [ascii] holds. *)

(** [s.split(sep)] for a one-character separator: never an empty array. *)
Fixpoint split (sep : ascii) (s : string) : list string :=
  match s with
  | EmptyString => [EmptyString]
  | String c s' =>
      if Ascii.eqb c sep then EmptyString :: split sep s'
      else match split sep s' with
           | hd :: tl => String c hd :: tl
           | [] => [String c EmptyString]
           end
  end.

(** The white space of [String.prototype.trim] among the characters a
    header can hold: TAB, LF, VT, FF, CR, SP and NBSP. *)
Definition isWhiteSpace (c : ascii) : bool :=
  let n := N_of_ascii c in
  (((9 <=? n) && (n <=? 13)) || (n =? 32) || (n =? 160))%N.

Fixpoint trimStart (s : string) : string :=
  match s with
  | EmptyString => EmptyString
  | String c s' => if isWhiteSpace c then trimStart s' else s
  end.

Fixpoint trimEnd (s : string) : string :=
  match s with
  | EmptyString => EmptyString
  | String c s' =>
      match trimEnd s' with
      | EmptyString => if isWhiteSpace c then EmptyString else String c EmptyString
      | t => String c t
      end
  end.

Definition trim (s : string) : string := trimEnd (trimStart s).

(** [s.startsWith(p)] *)
Definition startsWith (p s : string) : bool := String.prefix p s.

(** [s.slice(n)] for [0 <= n] *)
Fixpoint slice (n : nat) (s : string) : string :=
  match n, s with
  | O, _ => s
  | S n', String _ s' => slice n' s'
  | S _, EmptyString => EmptyString
  end.

(** A string is falsy exactly when it is empty. *)
Definition truthy (s : string) : bool := negb (String.eqb s EmptyString).

(** Decimal digits, shared by [parseInt] and by the store's reading of an
    integer parameter. *)
Definition digit (radix : Z) (c : ascii) : option Z :=
  let n := Z.of_N (N_of_ascii c) in
  let v := if (48 <=? n) && (n <=? 57) then Some (n - 48)
           else if (97 <=? n) && (n <=? 122) then Some (n - 87)
           else if (65 <=? n) && (n <=? 90) then Some (n - 55)
           else None in
  match v with
  | Some d => if d <? radix then Some d else None
  | None => None
  end.

(** The longest prefix of digits of [s], folded into [acc]; the count of
    digits read and the rest of the string come with it. *)
Fixpoint digits (radix : Z) (acc : Z) (read : nat) (s : string) : Z * nat * string :=
  match s with
  | EmptyString => (acc, read, s)
  | String c s' =>
      match digit radix c with
      | Some d => digits radix (acc * radix + d) (S read) s'
      | None => (acc, read, s)
      end
  end.

(** A JavaScript number as [parseInt] yields it (integers are kept exact). *)
Inductive number := NaN | Num (z : Z).

(** [parseInt(s)] with no radix argument: leading white space, a sign, a
    [0x] prefix, then the longest run of digits; [NaN] when there is none. *)
Definition parseInt (s : string) : number :=
  let s1 := trimStart s in
  let '(sign, s2) :=
    match s1 with
    | String "-" r => (-1, r)
    | String "+" r => (1, r)
    | _ => (1, s1)
    end in
  let '(radix, s3) :=
    match s2 with
    | String "0" (String "x" r) => (16, r)
    | String "0" (String "X" r) => (16, r)
    | _ => (10, s2)
    end in
  match digits radix 0 0 s3 with
  | (_, O, _) => NaN
  | (v, S _, _) => Num (sign * v)
  end.

(** Decimal text of a natural number, as the driver hands over a [bigint]
    count. *)
Fixpoint decimal_acc (fuel : nat) (n : Z) (acc : string) : string :=
  match fuel with
  | O => acc
  | S fuel' =>
      let acc' := String (ascii_of_N (Z.to_N (48 + n mod 10))) acc in
      if n <? 10 then acc' else decimal_acc fuel' (n / 10) acc'
  end.

Definition decimal (n : nat) : string :=
  decimal_acc (S n) (Z.of_nat n) EmptyString.

(** ** Requests and responses *)

(** A field of a parsed request body: absent ([undefined]), [null] or a
    string.  Every column a body field is written to is a text column. *)
Inductive field := Undefined | Null | Text (s : string).

(** [const { k } = req.body] *)
Definition prop (k : string) (o : gmap string field) : field :=
  default Undefined (o !! k).

(** The environment of the process; an unset variable reads [undefined],
    here [None]. *)
Record Env := {
  APP_TOKEN : option string;
  PORT : option string
}.

(** What the middlewares and handlers read from [req].  [cookies] is the
    object the cookie parser fills; a property may hold [undefined]. *)
Record Request := {
  authorization : option string;
  cookie : option string;
  cookies : gmap string (option string);
  query : gmap string string;
  body : gmap string field
}.

(** The routes registered on [app], with their path parameters. *)
Inductive Route :=
| GET_auth
| GET_api_reviews
| POST_api_reviews
| GET_api_reviews_slug (slug : string)
| GET_api_issues
| POST_api_issues
| PATCH_api_issues_id (id : string)
| GET_api_gaps
| POST_api_gaps
| PATCH_api_gaps_id (id : string)
| GET_api_stats
| GET_root.

(** ** Rows of the three tables

    Columns declared [NOT NULL] hold a value, the others an [option] where
    [None] is SQL [NULL].  The time stamps [reviewed_at] and [created_at]
    are written by every [INSERT] the application issues and by nothing
    else, so they hold a value too.  Times are clock readings in [Z]. *)
Module Review.
Record t := {
  id : Z;
  doc_slug : string;
  doc_title : option string;
  notes : option string;
  reviewed_at : Z
}.
End Review.

Module Issue.
Record t := {
  id : Z;
  doc_slug : option string;
  doc_title : option string;
  issue_type : string;
  description : string;
  suggested_fix : option string;
  status : option string;
  resolution_notes : option string;
  created_at : Z;
  resolved_at : option Z
}.
End Issue.

Module Gap.
Record t := {
  id : Z;
  ticket_id : option string;
  ticket_subject : option string;
  description : string;
  suggested_doc : option string;
  status : option string;
  doc_created_slug : option string;
  created_at : Z
}.
End Gap.

(** The database: the rows of each table in insertion order and the next
    value of each [SERIAL] sequence. *)
Record Db := {
  docs_reviews : list Review.t;
  docs_issues : list Issue.t;
  docs_gaps : list Gap.t;
  docs_reviews_id_seq : Z;
  docs_issues_id_seq : Z;
  docs_gaps_id_seq : Z
}.

Definition empty_db : Db :=
  {| docs_reviews := []; docs_issues := []; docs_gaps := [];
     docs_reviews_id_seq := 1; docs_issues_id_seq := 1; docs_gaps_id_seq := 1 |}.

(** The aggregate of the stats response.  [last_review] is [None] for
    [undefined], [Some None] for [null], [Some (Some t)] for a time. *)
Record Stats := {
  stats_issues : gmap string number;
  stats_gaps : gmap string number;
  stats_reviews_total : number;
  stats_reviews_last_review : option (option Z)
}.

(** What a handler writes to [res]: [res.json] of an error object, of rows,
    of [null], of [undefined] or of the stats; [res.send], [res.redirect]
    and [res.sendFile]. *)
Inductive Body :=
| Json_error (msg : string)
| Send (text : string)
| Json_reviews (rows : list Review.t)
| Json_review (row : Review.t)
| Json_issues (rows : list Issue.t)
| Json_issue (row : Issue.t)
| Json_gaps (rows : list Gap.t)
| Json_gap (row : Gap.t)
| Json_null
| Json_undefined
| Json_stats (s : Stats)
| Redirect (location : string)
| SendFile (name : string).

Record Response := {
  statusCode : Z;
  set_cookie : option string;
  payload : Body
}.

(** [res.json(b)] and the like on a fresh response: status 200 unless set. *)
Definition reply (b : Body) : Response :=
  {| statusCode := 200; set_cookie := None; payload := b |}.

(** [res.status(code)] followed by a body. *)
Definition res_status (code : Z) (b : Body) : Response :=
  {| statusCode := code; set_cookie := None; payload := b |}.

(** What a middleware does with a request: hand it on with [next()], or
    answer it and stop the chain. *)
Inductive Outcome :=
| Next (req : Request)
| Respond (res : Response).

(** ** Cookie parser (the middleware registered first) *)

(** [req.cookies[name] = value].  The name [__proto__] reaches the setter
    of [Object.prototype], which ignores a string and [undefined] alike;
    any other name becomes an own property. *)
Definition assign (name : string) (value : option string)
    (o : gmap string (option string)) : gmap string (option string) :=
  if String.eqb name "__proto__" then o else <[name := value]> o.

(** [const [name, value] = cookie.trim().split('='); req.cookies[name] = value] *)
Definition parse_cookie (o : gmap string (option string)) (cookie : string)
    : gmap string (option string) :=
  match split "=" (trim cookie) with
  | name :: value :: _ => assign name (Some value) o
  | [name] => assign name None o
  | [] => assign "undefined" None o
  end.

Definition with_cookies (o : gmap string (option string)) (req : Request) : Request :=
  {| authorization := authorization req; cookie := cookie req; cookies := o;
     query := query req; body := body req |}.

Definition cookieParser (req : Request) : Outcome :=
  match cookie req with
  | Some cookieHeader =>
      if truthy cookieHeader
      then Next (with_cookies (fold_left parse_cookie (split ";" cookieHeader) ∅) req)
      else Next (with_cookies ∅ req)
  | None => Next (with_cookies ∅ req)
  end.

(** [req.cookies.app_token]: [undefined] when the property is missing. *)
Definition read (name : string) (o : gmap string (option string)) : option string :=
  default None (o !! name).

(** ** The [/auth] endpoint *)

(** A value interpolated in a template literal. *)
Definition interpolate (v : option string) : string :=
  match v with Some s => s | None => "undefined" end.

Definition auth (env : Env) (req : Request) : Response :=
  let token := query req !! "token" in
  if decide (token = APP_TOKEN env) then
    {| statusCode := 302;
       set_cookie := Some ("app_token=" ++ interpolate token
                           ++ "; Path=/; HttpOnly; SameSite=Strict; Max-Age=31536000");
       payload := Redirect "/" |}
  else res_status 401 (Send "Invalid token").

(** ** The auth middleware *)

Definition requireAuth (env : Env) (req : Request) : Outcome :=
  if match authorization req with
     | Some authHeader =>
         truthy authHeader && startsWith "Bearer " authHeader
         && bool_decide (Some (slice 7 authHeader) = APP_TOKEN env)
     | None => false
     end
  then Next req
  else if bool_decide (read "app_token" (cookies req) = APP_TOKEN env)
  then Next req
  else Respond (res_status 401 (Json_error "Unauthorized")).

(** The credentials [requireAuth] looks at: the text after [Bearer ] in the
    Authorization header, and the [app_token] property of [req.cookies]. *)
Definition bearer_token (req : Request) : option string :=
  match authorization req with
  | Some authHeader =>
      if startsWith "Bearer " authHeader then Some (slice 7 authHeader) else None
  | None => None
  end.

Definition cookie_token (req : Request) : option string :=
  read "app_token" (cookies req).


(** The name the cookie parser gives a segment of the header. *)
Definition segment_name (cookie : string) : string :=
  match split "=" (trim cookie) with
  | name :: _ => name
  | [] => "undefined"
  end.

(** ** The persistence layer

    The meaning of the statements the handlers send.  A statement either
    yields its result rows and the database after it, or fails; a failed
    statement changes nothing. *)

Inductive DbError :=
| not_null_violation (column : string)
| string_data_right_truncation (width : nat)
| invalid_text_representation (text : string)
| failure (message : string).

Inductive Result (A : Type) :=
| Ok (a : A)
| Err (e : DbError).
Arguments Ok {A} a.
Arguments Err {A} e.

Definition bind {A B : Type} (r : Result A) (k : A -> Result B) : Result B :=
  match r with
  | Ok a => k a
  | Err e => Err e
  end.

Notation "'await' x <- r 'in' k" := (bind r (fun x => k))
  (at level 10, x name, r at level 100, k at level 200).

(** How the driver turns a JavaScript value into a parameter: [undefined]
    and [null] both become SQL [NULL]. *)
Definition prepareValue (v : field) : option string :=
  match v with
  | Text s => Some s
  | Undefined | Null => None
  end.

(** A [VARCHAR(width)] column refuses a longer text.  (A text whose excess
    is made of spaces only is refused here as well.) *)
Definition varchar (width : nat) (v : option string) : Result (option string) :=
  match v with
  | Some s => if (String.length s <=? width)%nat then Ok v
              else Err (string_data_right_truncation width)
  | None => Ok None
  end.

(** A [NOT NULL] column refuses [NULL]. *)
Definition not_null (column : string) (v : option string) : Result string :=
  match v with
  | Some s => Ok s
  | None => Err (not_null_violation column)
  end.

(** The blanks the server skips around a number: SP, TAB, LF, VT, FF, CR. *)
Definition isspace (c : ascii) : bool :=
  let n := N_of_ascii c in
  (((9 <=? n) && (n <=? 13)) || (n =? 32))%N.

Fixpoint skip_spaces (s : string) : string :=
  match s with
  | EmptyString => EmptyString
  | String c s' => if isspace c then skip_spaces s' else s
  end.

(** An [integer] parameter sent as text: optional blanks, an optional sign,
    a run of decimal digits, optional blanks, the whole within 32 bits. *)
Definition int4 (text : string) : Result Z :=
  let t := skip_spaces text in
  let '(sign, t') :=
    match t with
    | String "-" r => (-1, r)
    | String "+" r => (1, r)
    | _ => (1, t)
    end in
  match digits 10 0 0 t' with
  | (v, S _, rest) =>
      match skip_spaces rest with
      | EmptyString =>
          if (-2147483648 <=? sign * v) && (sign * v <=? 2147483647)
          then Ok (sign * v)
          else Err (invalid_text_representation text)
      | _ => Err (invalid_text_representation text)
      end
  | _ => Err (invalid_text_representation text)
  end.

(** [ORDER BY key DESC] *)
Fixpoint insert_desc {A : Type} (key : A -> Z) (x : A) (l : list A) : list A :=
  match l with
  | [] => [x]
  | y :: l' => if key y <? key x then x :: l else y :: insert_desc key x l'
  end.

Definition order_by_desc {A : Type} (key : A -> Z) (l : list A) : list A :=
  fold_right (insert_desc key) [] l.

(** [WHERE column = $1]: a [NULL] on either side matches nothing. *)
Definition sql_eq (column param : option string) : bool :=
  match column, param with
  | Some a, Some b => String.eqb a b
  | _, _ => false
  end.

(** [SELECT * FROM docs_reviews ORDER BY reviewed_at DESC] *)
Definition select_reviews (db : Db) : list Review.t :=
  order_by_desc Review.reviewed_at (docs_reviews db).

(** [SELECT * FROM docs_reviews WHERE doc_slug = $1 ORDER BY reviewed_at DESC LIMIT 1] *)
Definition select_latest_review (slug : option string) (db : Db) : list Review.t :=
  firstn 1 (order_by_desc Review.reviewed_at
              (List.filter (fun r => sql_eq (Some (Review.doc_slug r)) slug)
                           (docs_reviews db))).

(** [INSERT INTO docs_reviews (doc_slug, doc_title, notes, reviewed_at)
     VALUES ($1, $2, $3, NOW()) RETURNING *] *)
Definition insert_review (p1 p2 p3 : option string) (now : Z) (db : Db)
    : Result (list Review.t * Db) :=
  await slug <- varchar 255 p1 in
  await title <- varchar 500 p2 in
  await slug' <- not_null "doc_slug" slug in
  let row := {| Review.id := docs_reviews_id_seq db; Review.doc_slug := slug';
                Review.doc_title := title; Review.notes := p3;
                Review.reviewed_at := now |} in
  Ok ([row],
      {| docs_reviews := docs_reviews db ++ [row];
         docs_issues := docs_issues db; docs_gaps := docs_gaps db;
         docs_reviews_id_seq := docs_reviews_id_seq db + 1;
         docs_issues_id_seq := docs_issues_id_seq db;
         docs_gaps_id_seq := docs_gaps_id_seq db |}).

(** [SELECT * FROM docs_issues ORDER BY created_at DESC] *)
Definition select_issues (db : Db) : list Issue.t :=
  order_by_desc Issue.created_at (docs_issues db).

(** [SELECT * FROM docs_issues WHERE status = $1 ORDER BY created_at DESC] *)
Definition select_issues_where_status (p1 : option string) (db : Db) : list Issue.t :=
  order_by_desc Issue.created_at
    (List.filter (fun r => sql_eq (Issue.status r) p1) (docs_issues db)).

(** [INSERT INTO docs_issues (doc_slug, doc_title, issue_type, description,
     suggested_fix, status, created_at)
     VALUES ($1, $2, $3, $4, $5, 'open', NOW()) RETURNING *] *)
Definition insert_issue (p1 p2 p3 p4 p5 : option string) (now : Z) (db : Db)
    : Result (list Issue.t * Db) :=
  await slug <- varchar 255 p1 in
  await title <- varchar 500 p2 in
  await type <- varchar 50 p3 in
  await type' <- not_null "issue_type" type in
  await description <- not_null "description" p4 in
  let row := {| Issue.id := docs_issues_id_seq db; Issue.doc_slug := slug;
                Issue.doc_title := title; Issue.issue_type := type';
                Issue.description := description; Issue.suggested_fix := p5;
                Issue.status := Some "open"; Issue.resolution_notes := None;
                Issue.created_at := now; Issue.resolved_at := None |} in
  Ok ([row],
      {| docs_reviews := docs_reviews db;
         docs_issues := docs_issues db ++ [row]; docs_gaps := docs_gaps db;
         docs_reviews_id_seq := docs_reviews_id_seq db;
         docs_issues_id_seq := docs_issues_id_seq db + 1;
         docs_gaps_id_seq := docs_gaps_id_seq db |}).

(** The two expressions the issue update puts in its statement text for
    [resolved_at]. *)
Inductive timestamp_expr := NOW | NULL.

Definition eval_timestamp (e : timestamp_expr) (now : Z) : option Z :=
  match e with
  | NOW => Some now
  | NULL => None
  end.

(** [UPDATE docs_issues SET status = $1, resolution_notes = $2,
     resolved_at = <expr> WHERE id = $3 RETURNING *] *)
Definition update_issue (resolved_at : timestamp_expr) (p1 p2 : option string)
    (p3 : string) (now : Z) (db : Db) : Result (list Issue.t * Db) :=
  await id <- int4 p3 in
  await status <- varchar 20 p1 in
  let set (r : Issue.t) :=
    {| Issue.id := Issue.id r; Issue.doc_slug := Issue.doc_slug r;
       Issue.doc_title := Issue.doc_title r; Issue.issue_type := Issue.issue_type r;
       Issue.description := Issue.description r;
       Issue.suggested_fix := Issue.suggested_fix r;
       Issue.status := status; Issue.resolution_notes := p2;
       Issue.created_at := Issue.created_at r;
       Issue.resolved_at := eval_timestamp resolved_at now |} in
  let hit (r : Issue.t) := Issue.id r =? id in
  Ok (map set (List.filter hit (docs_issues db)),
      {| docs_reviews := docs_reviews db;
         docs_issues := map (fun r => if hit r then set r else r) (docs_issues db);
         docs_gaps := docs_gaps db;
         docs_reviews_id_seq := docs_reviews_id_seq db;
         docs_issues_id_seq := docs_issues_id_seq db;
         docs_gaps_id_seq := docs_gaps_id_seq db |}).

(** [SELECT * FROM docs_gaps ORDER BY created_at DESC] *)
Definition select_gaps (db : Db) : list Gap.t :=
  order_by_desc Gap.created_at (docs_gaps db).

(** [SELECT * FROM docs_gaps WHERE status = $1 ORDER BY created_at DESC] *)
Definition select_gaps_where_status (p1 : option string) (db : Db) : list Gap.t :=
  order_by_desc Gap.created_at
    (List.filter (fun r => sql_eq (Gap.status r) p1) (docs_gaps db)).

(** [INSERT INTO docs_gaps (ticket_id, ticket_subject, description,
     suggested_doc, status, created_at)
     VALUES ($1, $2, $3, $4, 'open', NOW()) RETURNING *] *)
Definition insert_gap (p1 p2 p3 p4 : option string) (now : Z) (db : Db)
    : Result (list Gap.t * Db) :=
  await ticket <- varchar 100 p1 in
  await subject <- varchar 500 p2 in
  await doc <- varchar 255 p4 in
  await description <- not_null "description" p3 in
  let row := {| Gap.id := docs_gaps_id_seq db; Gap.ticket_id := ticket;
                Gap.ticket_subject := subject; Gap.description := description;
                Gap.suggested_doc := doc; Gap.status := Some "open";
                Gap.doc_created_slug := None; Gap.created_at := now |} in
  Ok ([row],
      {| docs_reviews := docs_reviews db; docs_issues := docs_issues db;
         docs_gaps := docs_gaps db ++ [row];
         docs_reviews_id_seq := docs_reviews_id_seq db;
         docs_issues_id_seq := docs_issues_id_seq db;
         docs_gaps_id_seq := docs_gaps_id_seq db + 1 |}).

(** [UPDATE docs_gaps SET status = $1, doc_created_slug = $2 WHERE id = $3
     RETURNING *] *)
Definition update_gap (p1 p2 : option string) (p3 : string) (db : Db)
    : Result (list Gap.t * Db) :=
  await id <- int4 p3 in
  await status <- varchar 20 p1 in
  await slug <- varchar 255 p2 in
  let set (r : Gap.t) :=
    {| Gap.id := Gap.id r; Gap.ticket_id := Gap.ticket_id r;
       Gap.ticket_subject := Gap.ticket_subject r;
       Gap.description := Gap.description r;
       Gap.suggested_doc := Gap.suggested_doc r;
       Gap.status := status; Gap.doc_created_slug := slug;
       Gap.created_at := Gap.created_at r |} in
  let hit (r : Gap.t) := Gap.id r =? id in
  Ok (map set (List.filter hit (docs_gaps db)),
      {| docs_reviews := docs_reviews db; docs_issues := docs_issues db;
         docs_gaps := map (fun r => if hit r then set r else r) (docs_gaps db);
         docs_reviews_id_seq := docs_reviews_id_seq db;
         docs_issues_id_seq := docs_issues_id_seq db;
         docs_gaps_id_seq := docs_gaps_id_seq db |}).

(** The number of rows whose status is [s] ([NULL] is a group of its own). *)
Definition rows_with_status (s : option string) (statuses : list (option string)) : nat :=
  length (List.filter (fun x => bool_decide (x = s)) statuses).

(** [SELECT status, COUNT( * ) as count FROM t GROUP BY status]: one row per
    status that occurs, the count as decimal text. *)
Definition count_group_by_status (statuses : list (option string))
    : list (option string * string) :=
  map (fun s => (s, decimal (rows_with_status s statuses))) (remove_dups statuses).

(** [MAX(reviewed_at)]: [NULL] over no rows. *)
Definition max_timestamp (l : list Z) : option Z :=
  fold_left (fun m t => match m with
                        | Some m' => Some (Z.max m' t)
                        | None => Some t
                        end) l None.

(** [SELECT COUNT( * ) as count, MAX(reviewed_at) as last_review FROM docs_reviews]:
    always exactly one row. *)
Definition count_max_reviews (db : Db) : list (string * option Z) :=
  [(decimal (length (docs_reviews db)),
    max_timestamp (map Review.reviewed_at (docs_reviews db)))].

(** ** Route handlers

    A handler returns the response it writes and the database it leaves,
    or the error its rejected promise carries (no response is written). *)

(** [v === s] for a string literal [s] *)
Definition strict_eq (v : field) (s : string) : bool :=
  match v with
  | Text t => String.eqb t s
  | Undefined | Null => false
  end.

(** [v || d] on an optional string: [undefined] and the empty string are falsy. *)
Definition or_default (v : option string) (d : string) : string :=
  match v with
  | Some s => if truthy s then s else d
  | None => d
  end.

Definition get_api_reviews (req : Request) (db : Db) : Result (Response * Db) :=
  let result := select_reviews db in
  Ok (reply (Json_reviews result), db).

Definition post_api_reviews (req : Request) (now : Z) (db : Db) : Result (Response * Db) :=
  let doc_slug := prop "doc_slug" (body req) in
  let doc_title := prop "doc_title" (body req) in
  let notes := prop "notes" (body req) in
  await result <- insert_review (prepareValue doc_slug) (prepareValue doc_title)
                                (prepareValue notes) now db in
  Ok (reply (match fst result with
             | row :: _ => Json_review row
             | [] => Json_undefined
             end), snd result).

Definition get_api_reviews_slug (slug : string) (req : Request) (db : Db)
    : Result (Response * Db) :=
  let result := select_latest_review (Some slug) db in
  Ok (reply (match result with
             | row :: _ => Json_review row
             | [] => Json_null
             end), db).

Definition get_api_issues (req : Request) (db : Db) : Result (Response * Db) :=
  let status := or_default (query req !! "status") "open" in
  let result := if String.eqb status "all"
                then select_issues db
                else select_issues_where_status (Some status) db in
  Ok (reply (Json_issues result), db).

Definition post_api_issues (req : Request) (now : Z) (db : Db) : Result (Response * Db) :=
  let doc_slug := prop "doc_slug" (body req) in
  let doc_title := prop "doc_title" (body req) in
  let issue_type := prop "issue_type" (body req) in
  let description := prop "description" (body req) in
  let suggested_fix := prop "suggested_fix" (body req) in
  await result <- insert_issue (prepareValue doc_slug) (prepareValue doc_title)
                               (prepareValue issue_type) (prepareValue description)
                               (prepareValue suggested_fix) now db in
  Ok (reply (match fst result with
             | row :: _ => Json_issue row
             | [] => Json_undefined
             end), snd result).

Definition patch_api_issues_id (id : string) (req : Request) (now : Z) (db : Db)
    : Result (Response * Db) :=
  let status := prop "status" (body req) in
  let resolution_notes := prop "resolution_notes" (body req) in
  let resolved_at :=
    if strict_eq status "resolved" || strict_eq status "dismissed" then NOW else NULL in
  await result <- update_issue resolved_at (prepareValue status)
                               (prepareValue resolution_notes) id now db in
  Ok (reply (match fst result with
             | row :: _ => Json_issue row
             | [] => Json_undefined
             end), snd result).

Definition get_api_gaps (req : Request) (db : Db) : Result (Response * Db) :=
  let status := or_default (query req !! "status") "open" in
  let result := if String.eqb status "all"
                then select_gaps db
                else select_gaps_where_status (Some status) db in
  Ok (reply (Json_gaps result), db).

Definition post_api_gaps (req : Request) (now : Z) (db : Db) : Result (Response * Db) :=
  let ticket_id := prop "ticket_id" (body req) in
  let ticket_subject := prop "ticket_subject" (body req) in
  let description := prop "description" (body req) in
  let suggested_doc := prop "suggested_doc" (body req) in
  await result <- insert_gap (prepareValue ticket_id) (prepareValue ticket_subject)
                             (prepareValue description) (prepareValue suggested_doc)
                             now db in
  Ok (reply (match fst result with
             | row :: _ => Json_gap row
             | [] => Json_undefined
             end), snd result).

Definition patch_api_gaps_id (id : string) (req : Request) (db : Db)
    : Result (Response * Db) :=
  let status := prop "status" (body req) in
  let doc_created_slug := prop "doc_created_slug" (body req) in
  await result <- update_gap (prepareValue status) (prepareValue doc_created_slug) id db in
  Ok (reply (match fst result with
             | row :: _ => Json_gap row
             | [] => Json_undefined
             end), snd result).

(** The key a status makes in an object literal: [null] reads ["null"]. *)
Definition property_key (v : option string) : string :=
  match v with
  | Some s => s
  | None => "null"
  end.

(** [rows.reduce((acc, r) => ({ ...acc, [r.status]: parseInt(r.count) }), {})] *)
Definition reduce_counts (rows : list (option string * string)) : gmap string number :=
  fold_left (fun acc r => <[property_key (fst r) := parseInt (snd r)]> acc) rows ∅.

Definition get_api_stats (req : Request) (db : Db) : Result (Response * Db) :=
  let issues := count_group_by_status (map Issue.status (docs_issues db)) in
  let gaps := count_group_by_status (map Gap.status (docs_gaps db)) in
  let reviews := count_max_reviews db in
  Ok (reply (Json_stats
        {| stats_issues := reduce_counts issues;
           stats_gaps := reduce_counts gaps;
           stats_reviews_total :=
             (* [parseInt(reviews.rows[0]?.count || 0)]: the number 0 is
                read through its text *)
             parseInt (or_default (fst <$> head reviews) "0");
           stats_reviews_last_review := snd <$> head reviews |}), db).

Definition get_root (req : Request) (db : Db) : Result (Response * Db) :=
  Ok (reply (SendFile "public/index.html"), db).

(** ** The application: each route with the middlewares in front of it *)

(** How a request ends: answered by a middleware before any handler ran,
    or given to the handler of its route. *)
Inductive Exchange :=
| Blocked (res : Response)
| Handled (out : Result (Response * Db)).

(** [app.METHOD(path, requireAuth, handler)] *)
Definition guarded (env : Env) (req : Request)
    (handler : Request -> Result (Response * Db)) : Exchange :=
  match requireAuth env req with
  | Next req' => Handled (handler req')
  | Respond res => Blocked res
  end.

Definition route (env : Env) (now : Z) (rt : Route) (req : Request) (db : Db) : Exchange :=
  match rt with
  | GET_auth => Handled (Ok (auth env req, db))
  | GET_api_reviews => guarded env req (fun req => get_api_reviews req db)
  | POST_api_reviews => guarded env req (fun req => post_api_reviews req now db)
  | GET_api_reviews_slug slug =>
      guarded env req (fun req => get_api_reviews_slug slug req db)
  | GET_api_issues => guarded env req (fun req => get_api_issues req db)
  | POST_api_issues => guarded env req (fun req => post_api_issues req now db)
  | PATCH_api_issues_id id =>
      guarded env req (fun req => patch_api_issues_id id req now db)
  | GET_api_gaps => guarded env req (fun req => get_api_gaps req db)
  | POST_api_gaps => guarded env req (fun req => post_api_gaps req now db)
  | PATCH_api_gaps_id id => guarded env req (fun req => patch_api_gaps_id id req db)
  | GET_api_stats => guarded env req (fun req => get_api_stats req db)
  | GET_root => guarded env req (fun req => get_root req db)
  end.

(** A request through the application: the cookie parser, then its route. *)
Definition app (env : Env) (now : Z) (rt : Route) (req : Request) (db : Db) : Exchange :=
  match cookieParser req with
  | Next req' => route env now rt req' db
  | Respond res => Blocked res
  end.


(** ** Start-up

    [setupDb] sends three [CREATE TABLE IF NOT EXISTS] statements one after
    the other, and [app.listen] is called from the [then] of its promise.
    The database server is left abstract: any state, any way of answering
    a statement. *)

Inductive Table := Docs_reviews | Docs_issues | Docs_gaps.

Inductive Event :=
| Created (t : Table)
| Failed (t : Table)
| Logged (message : string)
| Listening (port : string).

Section Startup.

Variable Server : Type.
Variable create_table_if_not_exists : Table -> Server -> Result Server.

(** The process as it starts: the server it talks to and what it has
    done so far. *)
Record Process := {
  server : Server;
  events : list Event
}.

(** A promise run to its settlement: fulfilled with a value or rejected
    with an error, and the process as it is then. *)
Definition Async (A : Type) : Type := Process -> Result A * Process.

Definition record (e : Event) (p : Process) : Process :=
  {| server := server p; events := events p ++ [e] |}.

(** [await pool.query(`CREATE TABLE IF NOT EXISTS ...`)] *)
Definition pool_query (t : Table) : Async unit :=
  fun p =>
    match create_table_if_not_exists t (server p) with
    | Ok s => (Ok tt, record (Created t) {| server := s; events := events p |})
    | Err e => (Err e, record (Failed t) p)
    end.

Definition console_log (message : string) : Async unit :=
  fun p => (Ok tt, record (Logged message) p).

(** One [await] after another: a rejection skips what follows. *)
Definition andThen {A B : Type} (m : Async A) (k : A -> Async B) : Async B :=
  fun p =>
    match m p with
    | (Ok a, p') => k a p'
    | (Err e, p') => (Err e, p')
    end.

Definition setupDb : Async unit :=
  andThen (pool_query Docs_reviews) (fun _ =>
  andThen (pool_query Docs_issues) (fun _ =>
  andThen (pool_query Docs_gaps) (fun _ =>
  console_log "Database tables ready"))).

(** [app.listen(PORT, () => console.log(...))] with
    [PORT = process.env.PORT || 3000] *)
Definition listen (env : Env) : Async unit :=
  let port := or_default (PORT env) "3000" in
  fun p => (Ok tt, record (Logged ("Doc tracker running on port " ++ port))
                          (record (Listening port) p)).

(** [setupDb().then(() => { app.listen(...) })] *)
Definition main (env : Env) : Async unit :=
  andThen setupDb (fun _ => listen env).

Definition boot (env : Env) (s : Server) : Result unit * Process :=
  main env {| server := s; events := [] |}.

End Startup.

Arguments server {Server} p.
Arguments events {Server} p.

(** ** Vocabulary of the statements, and sample requests and tables *)

(** Newest first: each row is at least as recent as the one after it. *)
Definition desc {A : Type} (key : A -> Z) (a b : A) : Prop := key b <= key a.

(** A request with no header, no query and an empty body. *)
Definition blank_request : Request :=
  {| authorization := None; cookie := None; cookies := ∅; query := ∅; body := ∅ |}.

(** A request that carries a bearer token. *)
Definition bearer_request : Request :=
  {| authorization := Some "Bearer s3cret"; cookie := None; cookies := ∅;
     query := ∅; body := ∅ |}.

(** [res.status(401).json({ error: 'Unauthorized' })] *)
Definition unauthorized : Response := res_status 401 (Json_error "Unauthorized").

(** A request whose only header is [Cookie: header]. *)
Definition cookie_request (header : string) : Request :=
  {| authorization := None; cookie := Some header; cookies := ∅;
     query := ∅; body := ∅ |}.

(** A database with one open issue. *)
Definition sample_issue : Issue.t :=
  {| Issue.id := 1; Issue.doc_slug := Some "intro"; Issue.doc_title := None;
     Issue.issue_type := "typo"; Issue.description := "teh";
     Issue.suggested_fix := None; Issue.status := Some "open";
     Issue.resolution_notes := None; Issue.created_at := 10;
     Issue.resolved_at := None |}.

Definition sample_db : Db :=
  {| docs_reviews := []; docs_issues := [sample_issue]; docs_gaps := [];
     docs_reviews_id_seq := 1; docs_issues_id_seq := 2; docs_gaps_id_seq := 1 |}.


(** A request with the parsed body [b]. *)
Definition body_request (b : gmap string field) : Request :=
  {| authorization := None; cookie := None; cookies := ∅; query := ∅; body := b |}.

Definition resolve_request : Request :=
  body_request {[ "status" := Text "resolved"; "resolution_notes" := Text "fixed" ]}.

Definition reopen_request : Request :=
  body_request {[ "status" := Text "open" ]}.

(** The text of a body field is no longer than a column is wide. *)
Definition fits (width : nat) (v : field) : Prop :=
  forall s, v = Text s -> (String.length s <= width)%nat.

(** Bodies for the three [POST] routes; the first two carry a status (and a
    creation time) of their own. *)
Definition issue_body : gmap string field :=
  {[ "doc_slug" := Text "intro"; "issue_type" := Text "typo";
     "description" := Text "teh"; "suggested_fix" := Null;
     "status" := Text "resolved"; "created_at" := Text "1999-01-01" ]}.


Definition review_body : gmap string field :=
  {[ "doc_slug" := Text "intro"; "doc_title" := Text "Introduction";
     "notes" := Text "a=b; fine" ]}.

(** The characters [0] to [9], and the strings made of them. *)
Definition is_digit (c : ascii) : bool :=
  ((48 <=? N_of_ascii c) && (N_of_ascii c <=? 57))%N.

Fixpoint all_digits (s : string) : bool :=
  match s with
  | EmptyString => true
  | String c s' => is_digit c && all_digits s'
  end.

Definition digit_char (d : Z) : ascii := ascii_of_N (Z.to_N (48 + d)).

(** A database whose only issue has lost its status (a [PATCH] with no
    [status] in the body writes [NULL]). *)
Definition null_status_db : Db :=
  {| docs_reviews := [];
     docs_issues :=
       [{| Issue.id := 1; Issue.doc_slug := None; Issue.doc_title := None;
           Issue.issue_type := "typo"; Issue.description := "teh";
           Issue.suggested_fix := None; Issue.status := None;
           Issue.resolution_notes := None; Issue.created_at := 10;
           Issue.resolved_at := None |}];
     docs_gaps := [];
     docs_reviews_id_seq := 1; docs_issues_id_seq := 2; docs_gaps_id_seq := 1 |}.

(** Two reviews of the same document, and the review a [POST] of
    [review_body] at time 42 creates in the empty database. *)
Definition old_review : Review.t :=
  {| Review.id := 1; Review.doc_slug := "intro"; Review.doc_title := None;
     Review.notes := None; Review.reviewed_at := 10 |}.

Definition new_review : Review.t :=
  {| Review.id := 2; Review.doc_slug := "intro"; Review.doc_title := None;
     Review.notes := Some "again"; Review.reviewed_at := 20 |}.

Definition reviews_db : Db :=
  {| docs_reviews := [old_review; new_review]; docs_issues := []; docs_gaps := [];
     docs_reviews_id_seq := 3; docs_issues_id_seq := 1; docs_gaps_id_seq := 1 |}.

Definition created_review : Review.t :=
  {| Review.id := 1; Review.doc_slug := "intro";
     Review.doc_title := Some "Introduction"; Review.notes := Some "a=b; fine";
     Review.reviewed_at := 42 |}.

Definition db_with_created_review : Db :=
  {| docs_reviews := [created_review]; docs_issues := []; docs_gaps := [];
     docs_reviews_id_seq := 2; docs_issues_id_seq := 1; docs_gaps_id_seq := 1 |}.

(** A text with no [=] and no [;] in it. *)
Definition clean (s : string) : Prop :=
  ~ In "="%char (list_ascii_of_string s) /\ ~ In ";"%char (list_ascii_of_string s).

(** A cookies object with no own [__proto__] whose names and values are
    all clean. *)
Definition clean_cookies (o : gmap string (option string)) : Prop :=
  o !! "__proto__" = None /\
  forall name value,
    o !! name = Some value ->
    clean name /\ forall text, value = Some text -> clean text.

(** The handler of a route, as [app] calls it once the middlewares in
    front of it have called [next()]. *)
Definition handle (env : Env) (now : Z) (rt : Route) (req : Request) (db : Db)
    : Result (Response * Db) :=
  match rt with
  | GET_auth => Ok (auth env req, db)
  | GET_api_reviews => get_api_reviews req db
  | POST_api_reviews => post_api_reviews req now db
  | GET_api_reviews_slug slug => get_api_reviews_slug slug req db
  | GET_api_issues => get_api_issues req db
  | POST_api_issues => post_api_issues req now db
  | PATCH_api_issues_id id => patch_api_issues_id id req now db
  | GET_api_gaps => get_api_gaps req db
  | POST_api_gaps => post_api_gaps req now db
  | PATCH_api_gaps_id id => patch_api_gaps_id id req db
  | GET_api_stats => get_api_stats req db
  | GET_root => get_root req db
  end.

(** The columns of an issue and of a gap that no [UPDATE] of the
    application names. *)
Definition issue_fixed (r : Issue.t) :=
  (Issue.id r, Issue.doc_slug r, Issue.doc_title r, Issue.issue_type r,
   Issue.description r, Issue.suggested_fix r, Issue.created_at r).

Definition gap_fixed (r : Gap.t) :=
  (Gap.id r, Gap.ticket_id r, Gap.ticket_subject r, Gap.description r,
   Gap.suggested_doc r, Gap.created_at r).

(** What one request can do to the database: nothing, one row appended to
    a table with the next value of its sequence as id, or the rows of the
    issues or gaps table rewritten in place with their fixed columns kept. *)
Inductive Step (db db' : Db) : Prop :=
| step_none :
    db' = db -> Step db db'
| step_insert_review (row : Review.t) :
    Review.id row = docs_reviews_id_seq db ->
    db' = {| docs_reviews := docs_reviews db ++ [row];
             docs_issues := docs_issues db; docs_gaps := docs_gaps db;
             docs_reviews_id_seq := docs_reviews_id_seq db + 1;
             docs_issues_id_seq := docs_issues_id_seq db;
             docs_gaps_id_seq := docs_gaps_id_seq db |} ->
    Step db db'
| step_insert_issue (row : Issue.t) :
    Issue.id row = docs_issues_id_seq db ->
    db' = {| docs_reviews := docs_reviews db;
             docs_issues := docs_issues db ++ [row]; docs_gaps := docs_gaps db;
             docs_reviews_id_seq := docs_reviews_id_seq db;
             docs_issues_id_seq := docs_issues_id_seq db + 1;
             docs_gaps_id_seq := docs_gaps_id_seq db |} ->
    Step db db'
| step_insert_gap (row : Gap.t) :
    Gap.id row = docs_gaps_id_seq db ->
    db' = {| docs_reviews := docs_reviews db; docs_issues := docs_issues db;
             docs_gaps := docs_gaps db ++ [row];
             docs_reviews_id_seq := docs_reviews_id_seq db;
             docs_issues_id_seq := docs_issues_id_seq db;
             docs_gaps_id_seq := docs_gaps_id_seq db + 1 |} ->
    Step db db'
| step_update_issues (f : Issue.t -> Issue.t) :
    (forall r, issue_fixed (f r) = issue_fixed r) ->
    db' = {| docs_reviews := docs_reviews db;
             docs_issues := map f (docs_issues db); docs_gaps := docs_gaps db;
             docs_reviews_id_seq := docs_reviews_id_seq db;
             docs_issues_id_seq := docs_issues_id_seq db;
             docs_gaps_id_seq := docs_gaps_id_seq db |} ->
    Step db db'
| step_update_gaps (f : Gap.t -> Gap.t) :
    (forall r, gap_fixed (f r) = gap_fixed r) ->
    db' = {| docs_reviews := docs_reviews db; docs_issues := docs_issues db;
             docs_gaps := map f (docs_gaps db);
             docs_reviews_id_seq := docs_reviews_id_seq db;
             docs_issues_id_seq := docs_issues_id_seq db;
             docs_gaps_id_seq := docs_gaps_id_seq db |} ->
    Step db db'.

(** The ids of a table are pairwise distinct and below the next value of
    its sequence. *)
Definition ids_fresh {A : Type} (id : A -> Z) (next : Z) (rows : list A) : Prop :=
  NoDup (map id rows) /\ forall r, In r rows -> id r < next.

Definition consistent (db : Db) : Prop :=
  ids_fresh Review.id (docs_reviews_id_seq db) (docs_reviews db) /\
  ids_fresh Issue.id (docs_issues_id_seq db) (docs_issues db) /\
  ids_fresh Gap.id (docs_gaps_id_seq db) (docs_gaps db).

(** [sample_issue] resolved at time 20, and the database with it. *)
Definition resolved_issue : Issue.t :=
  {| Issue.id := 1; Issue.doc_slug := Some "intro"; Issue.doc_title := None;
     Issue.issue_type := "typo"; Issue.description := "teh";
     Issue.suggested_fix := None; Issue.status := Some "resolved";
     Issue.resolution_notes := Some "fixed"; Issue.created_at := 10;
     Issue.resolved_at := Some 20 |}.

Definition resolved_db : Db :=
  {| docs_reviews := []; docs_issues := [resolved_issue]; docs_gaps := [];
     docs_reviews_id_seq := 1; docs_issues_id_seq := 2; docs_gaps_id_seq := 1 |}.

(** An environment with no secret, in which every request without an
    [app_token] cookie passes the gate. *)
Definition open_env : Env := {| APP_TOKEN := None; PORT := None |}.

(** A database with one open gap, a body that closes it, and the gap and
    the database after that. *)
Definition sample_gap : Gap.t :=
  {| Gap.id := 1; Gap.ticket_id := Some "T-12"; Gap.ticket_subject := None;
     Gap.description := "no page on export"; Gap.suggested_doc := None;
     Gap.status := Some "open"; Gap.doc_created_slug := None;
     Gap.created_at := 10 |}.

Definition gaps_db : Db :=
  {| docs_reviews := []; docs_issues := []; docs_gaps := [sample_gap];
     docs_reviews_id_seq := 1; docs_issues_id_seq := 1; docs_gaps_id_seq := 2 |}.

Definition close_gap_request : Request :=
  body_request {[ "status" := Text "done"; "doc_created_slug" := Text "export" ]}.

(** The issue a [POST] of [issue_body] at time 42 creates in [sample_db],
    and the database with it. *)
Definition created_issue : Issue.t :=
  {| Issue.id := 2; Issue.doc_slug := Some "intro"; Issue.doc_title := None;
     Issue.issue_type := "typo"; Issue.description := "teh";
     Issue.suggested_fix := None; Issue.status := Some "open";
     Issue.resolution_notes := None; Issue.created_at := 42;
     Issue.resolved_at := None |}.

Definition db_with_created_issue : Db :=
  {| docs_reviews := []; docs_issues := [sample_issue; created_issue];
     docs_gaps := [];
     docs_reviews_id_seq := 1; docs_issues_id_seq := 3; docs_gaps_id_seq := 1 |}.

(** * Properties *)

(** ** The auth gate *)



Lemma requireAuth_cookie (env : Env) (req : Request) :
  cookie_token req = APP_TOKEN env -> requireAuth env req = Next req.
Proof.
  unfold requireAuth, cookie_token. intros H.
  rewrite (bool_decide_eq_true_2 _ H). by destruct (match authorization req with Some _ => _ | None => _ end).
Qed.

Lemma requireAuth_neither (env : Env) (req : Request) :
  bearer_token req <> APP_TOKEN env \/ APP_TOKEN env = None ->
  cookie_token req <> APP_TOKEN env ->
  requireAuth env req = Respond (res_status 401 (Json_error "Unauthorized")).
Proof.
  unfold requireAuth, bearer_token, cookie_token. intros Hb Hc.
  rewrite (bool_decide_eq_false_2 _ Hc).
  destruct (authorization req) as [h|]; [|done].
  destruct (startsWith "Bearer " h) eqn:Hp.
  - rewrite bool_decide_eq_false_2; [by rewrite andb_false_r|].
    destruct Hb as [Hb|Hb]; [done | by rewrite Hb].
  - by rewrite andb_false_r.
Qed.

Lemma route_api_guarded (env : Env) (now : Z) (rt : Route) (req : Request) (db : Db) :
  rt <> GET_auth ->
  exists handler, route env now rt req db = guarded env req handler.
Proof. intros H. destruct rt; try done; eexists; reflexivity. Qed.



(** The cases the specification lists, through the whole application. *)
Example missing_credential_401 :
  app {| APP_TOKEN := Some "s3cret"; PORT := None |} 0 GET_api_issues
      blank_request empty_db = Blocked unauthorized.
Proof. reflexivity. Qed.

Example empty_credential_401 :
  app {| APP_TOKEN := Some "s3cret"; PORT := None |} 0 GET_api_issues
      {| authorization := Some "Bearer "; cookie := Some "app_token=";
         cookies := ∅; query := ∅; body := ∅ |} empty_db = Blocked unauthorized.
Proof. vm_compute. reflexivity. Qed.

Example other_case_401 :
  app {| APP_TOKEN := Some "s3cret"; PORT := None |} 0 GET_api_issues
      {| authorization := Some "Bearer S3CRET"; cookie := Some "app_token=S3cret";
         cookies := ∅; query := ∅; body := ∅ |} empty_db = Blocked unauthorized.
Proof. vm_compute. reflexivity. Qed.

Example cookie_accepted :
  exists out,
    app {| APP_TOKEN := Some "s3cret"; PORT := None |} 0 GET_api_issues
        {| authorization := None; cookie := Some "theme=dark; app_token=s3cret";
           cookies := ∅; query := ∅; body := ∅ |} empty_db = Handled out.
Proof. vm_compute. eexists. reflexivity. Qed.

(** ** The cookie parser *)

Lemma parse_cookie_other (o : gmap string (option string)) (seg k : string) :
  segment_name seg <> k -> parse_cookie o seg !! k = o !! k.
Proof.
  unfold parse_cookie, segment_name, assign. intros H.
  destruct (split "=" (trim seg)) as [|name [|value rest]];
    match goal with |- context [String.eqb ?a ?b] => destruct (String.eqb a b) end;
    try done; by rewrite lookup_insert_ne.
Qed.

Lemma fold_parse_cookie_other (segs : list string) (k : string) :
  forall o : gmap string (option string),
    ~ In k (map segment_name segs) ->
    fold_left parse_cookie segs o !! k = o !! k.
Proof.
  induction segs as [|seg segs IH]; intros o H; simpl; [done|].
  simpl in H. rewrite IH by tauto. apply parse_cookie_other. tauto.
Qed.

(** C10.  With [APP_TOKEN] unset the secret reads [undefined]; a request
    whose Cookie header (if any) has no segment named [app_token] then
    reads [undefined] for [req.cookies.app_token] as well, the two compare
    equal, and the gate calls [next()]: the request reaches its handler
    whatever its Authorization header says. *)
Theorem unset_secret_lets_cookieless_requests_in :
  forall (port : option string) (rt : Route) (now : Z) (req : Request) (db : Db),
    (forall header, cookie req = Some header ->
                    ~ In "app_token" (map segment_name (split ";" header))) ->
    exists req' out,
      cookieParser req = Next req' /\
      requireAuth {| APP_TOKEN := None; PORT := port |} req' = Next req' /\
      app {| APP_TOKEN := None; PORT := port |} now rt req db = Handled out.
Proof.
  intros port rt now req db Hno.
  set (env := {| APP_TOKEN := None; PORT := port |}).
  assert (Hparsed : exists req', cookieParser req = Next req' /\
                                 cookie_token req' = None).
  { unfold cookieParser, cookie_token, read.
    destruct (cookie req) as [h|] eqn:Hc; [destruct (truthy h)|];
      eexists; (split; [reflexivity|]); simpl; try done.
    rewrite fold_parse_cookie_other by (by apply Hno). done. }
  destruct Hparsed as (req' & Hp & Htok).
  assert (Hgate : requireAuth env req' = Next req')
    by (by apply requireAuth_cookie).
  assert (Hroute : exists out, route env now rt req' db = Handled out)
    by (destruct rt; simpl; unfold guarded; rewrite ?Hgate; eauto).
  destruct Hroute as [out Hout].
  exists req', out. unfold app. rewrite Hp. auto.
Qed.

Lemma unset_secret_lets_cookieless_requests_in_witness :
  exists req' out,
    cookieParser {| authorization := Some "Bearer guess"; cookie := Some "theme=dark";
                    cookies := ∅; query := ∅; body := ∅ |} = Next req' /\
    requireAuth {| APP_TOKEN := None; PORT := None |} req' = Next req' /\
    app {| APP_TOKEN := None; PORT := None |} 0 GET_api_stats
        {| authorization := Some "Bearer guess"; cookie := Some "theme=dark";
           cookies := ∅; query := ∅; body := ∅ |} empty_db = Handled out.
Proof.
  apply unset_secret_lets_cookieless_requests_in.
  intros header [= <-]. vm_compute. intros [H|[]]. discriminate H.
Defined.

Lemma split_cons (sep c : ascii) (s : string) :
  c <> sep ->
  split sep (String c s) =
    String c (List.hd EmptyString (split sep s)) :: List.tl (split sep s).
Proof.
  intros H. simpl. destruct (Ascii.eqb_spec c sep); [done|].
  destruct (split sep s); reflexivity.
Qed.

(** What the parser keeps of a segment [name=value=rest]: the text between
    the first and the second [=]. *)
Lemma split_two (sep : ascii) (name value rest : string) :
  (forall c, In c (list_ascii_of_string name) -> c <> sep) ->
  (forall c, In c (list_ascii_of_string value) -> c <> sep) ->
  exists more,
    split sep (name ++ String sep (value ++ String sep rest)) = name :: value :: more.
Proof.
  intros Hn Hv.
  assert (Hone : forall a b, (forall c, In c (list_ascii_of_string a) -> c <> sep) ->
                   split sep (a ++ String sep b) = a :: split sep b).
  { induction a as [|c a IH]; intros b Ha.
    - simpl. by rewrite Ascii.eqb_refl.
    - change (String c a ++ String sep b) with (String c (a ++ String sep b)).
      rewrite split_cons by (apply Ha; by left).
      rewrite IH by (intros; apply Ha; by right). reflexivity. }
  rewrite Hone by done. rewrite Hone by done. eauto.
Qed.

Lemma parse_cookie_second_piece (o : gmap string (option string))
    (name value rest : string) :
  trim (name ++ String "=" (value ++ String "=" rest))
    = name ++ String "=" (value ++ String "=" rest) ->
  (forall c, In c (list_ascii_of_string name) -> c <> "="%char) ->
  (forall c, In c (list_ascii_of_string value) -> c <> "="%char) ->
  name <> "__proto__" ->
  read name (parse_cookie o (name ++ String "=" (value ++ String "=" rest)))
    = Some value.
Proof.
  intros Htrim Hn Hv Hproto. unfold parse_cookie, read, assign. rewrite Htrim.
  destruct (split_two "=" name value rest Hn Hv) as [more ->].
  destruct (String.eqb_spec name "__proto__"); [done|].
  by rewrite lookup_insert_eq.
Qed.

(** C2 (as the code has it).  For the header [app_token=a=b] the parser
    stores [a] under [app_token]: the segment is split at every [=] and
    only the first two pieces are kept, so the value is cut at its first
    [=] instead of being everything after the first [=] of the segment. *)
Theorem cookie_value_cut_at_second_equals :
  exists req',
    cookieParser (cookie_request "app_token=a=b") = Next req' /\
    read "app_token" (cookies req') = Some "a" /\
    read "app_token" (cookies req') <> Some "a=b".
Proof.
  eexists. split; [reflexivity|]. split; [by vm_compute | by vm_compute].
Qed.

(** The cookie [/auth] sets for a secret that holds an [=] is not read back
    as that secret: the browser that just logged in is turned away, while
    the same secret sent as a bearer token is let in. *)
Example auth_cookie_not_read_back :
  set_cookie (auth {| APP_TOKEN := Some "a=b"; PORT := None |}
                   {| authorization := None; cookie := None; cookies := ∅;
                      query := {[ "token" := "a=b" ]}; body := ∅ |})
    = Some "app_token=a=b; Path=/; HttpOnly; SameSite=Strict; Max-Age=31536000" /\
  app {| APP_TOKEN := Some "a=b"; PORT := None |} 0 GET_api_issues
      (cookie_request "app_token=a=b") empty_db = Blocked unauthorized /\
  exists out,
    app {| APP_TOKEN := Some "a=b"; PORT := None |} 0 GET_api_issues
        {| authorization := Some "Bearer a=b"; cookie := None; cookies := ∅;
           query := ∅; body := ∅ |} empty_db = Handled out.
Proof.
  split; [by vm_compute|]. split; [by vm_compute|].
  vm_compute. eexists. reflexivity.
Qed.

(** ** [ORDER BY ... DESC] *)

Section OrderBy.

Context {A : Type} (key : A -> Z).

Lemma insert_desc_perm (x : A) (l : list A) :
  Permutation (insert_desc key x l) (x :: l).
Proof.
  induction l as [|y l IH]; simpl; [done|].
  destruct (key y <? key x); [done|].
  rewrite IH. apply perm_swap.
Qed.

Lemma order_by_desc_perm (l : list A) : Permutation (order_by_desc key l) l.
Proof.
  induction l as [|x l IH]; simpl; [done|].
  rewrite insert_desc_perm. by constructor.
Qed.

Lemma insert_desc_hd (x y : A) (l : list A) :
  desc key y x -> HdRel (desc key) y l -> HdRel (desc key) y (insert_desc key x l).
Proof.
  intros Hx Hl. destruct l as [|z l]; simpl; [by constructor|].
  destruct (key z <? key x); constructor; [done|].
  by apply HdRel_inv in Hl.
Qed.

Lemma insert_desc_sorted (x : A) (l : list A) :
  Sorted (desc key) l -> Sorted (desc key) (insert_desc key x l).
Proof.
  induction l as [|y l IH]; intros Hs; simpl.
  - repeat constructor.
  - apply Sorted_inv in Hs as [Hs Hhd].
    destruct (key y <? key x) eqn:Hlt.
    + constructor; [by constructor|]. constructor. unfold desc. lia.
    + constructor; [by apply IH|].
      apply insert_desc_hd; [unfold desc; lia | done].
Qed.

Lemma order_by_desc_sorted (l : list A) : Sorted (desc key) (order_by_desc key l).
Proof.
  induction l as [|x l IH]; simpl; [constructor|].
  by apply insert_desc_sorted.
Qed.

(** The first row of a descending list is the most recent of all. *)
Lemma sorted_desc_head (x : A) (l : list A) :
  Sorted (desc key) (x :: l) -> forall y, In y (x :: l) -> key y <= key x.
Proof.
  intros Hs. apply Sorted_StronglySorted in Hs.
  - apply StronglySorted_inv in Hs as [_ Hall].
    rewrite List.Forall_forall in Hall.
    intros y [->|Hy]; [lia | by apply Hall].
  - intros a b c. unfold desc. lia.
Qed.

End OrderBy.

(** ** Reviews *)



Example latest_review_is_the_newest :
  get_api_reviews_slug "intro" blank_request reviews_db
    = Ok (reply (Json_review new_review), reviews_db).
Proof. reflexivity. Qed.

(** ** Listing issues and gaps *)

Lemma sql_eq_decide (column : option string) (s : string) :
  sql_eq column (Some s) = bool_decide (column = Some s).
Proof.
  destruct column as [c|]; simpl.
  - destruct (String.eqb_spec c s) as [->|Hne].
    + by rewrite bool_decide_eq_true_2.
    + rewrite bool_decide_eq_false_2; [done | congruence].
  - reflexivity.
Qed.






(** ** Updating an issue *)

Lemma varchar_ok (width : nat) (v v' : option string) :
  varchar width v = Ok v' -> v' = v.
Proof.
  destruct v as [s|]; simpl; [destruct (_ <=? _)%nat|]; congruence.
Qed.

Lemma varchar_fits (width : nat) (v : option string) :
  (forall s, v = Some s -> (String.length s <= width)%nat) ->
  varchar width v = Ok v.
Proof.
  intros H. destruct v as [s|]; simpl; [|done].
  specialize (H s eq_refl). apply Nat.leb_le in H. by rewrite H.
Qed.



(** Resolving an issue and patching it back to [open] later: the time
    stamp written by the first update is gone after the second. *)
Example reopen_clears_resolved_at :
  exists res1 db1 res2 db2,
    patch_api_issues_id "1" resolve_request 20 sample_db = Ok (res1, db1) /\
    map Issue.resolved_at (docs_issues db1) = [Some 20] /\
    patch_api_issues_id "1" reopen_request 30 db1 = Ok (res2, db2) /\
    map Issue.resolved_at (docs_issues db2) = [None] /\
    map Issue.status (docs_issues db2) = [Some "open"].
Proof. do 4 eexists. vm_compute. repeat split. Qed.

(** ** Creating rows *)

Lemma varchar_prepare (width : nat) (v : field) :
  fits width v -> varchar width (prepareValue v) = Ok (prepareValue v).
Proof.
  intros H. apply varchar_fits. intros s Hs. apply H.
  destruct v; simpl in Hs; congruence.
Qed.

Lemma post_api_issues_ok (req : Request) (now : Z) (db : Db) (res : Response) (db' : Db) :
  post_api_issues req now db = Ok (res, db') ->
  exists row,
    res = reply (Json_issue row) /\
    docs_issues db' = (docs_issues db ++ [row])%list /\
    Issue.status row = Some "open" /\ Issue.created_at row = now /\
    Issue.doc_slug row = prepareValue (prop "doc_slug" (body req)) /\
    Issue.doc_title row = prepareValue (prop "doc_title" (body req)) /\
    Some (Issue.issue_type row) = prepareValue (prop "issue_type" (body req)) /\
    Some (Issue.description row) = prepareValue (prop "description" (body req)) /\
    Issue.suggested_fix row = prepareValue (prop "suggested_fix" (body req)).
Proof.
  unfold post_api_issues, insert_issue.
  destruct (varchar 255 _) as [slug|] eqn:H1; simpl; [|discriminate].
  destruct (varchar 500 _) as [title|] eqn:H2; simpl; [|discriminate].
  destruct (varchar 50 _) as [type|] eqn:H3; simpl; [|discriminate].
  apply varchar_ok in H1, H2, H3. subst.
  destruct (prepareValue (prop "issue_type" (body req))) as [type|];
    simpl; [|discriminate].
  destruct (prepareValue (prop "description" (body req))) as [descr|];
    simpl; [|discriminate].
  intros [= <- <-]. eexists. repeat split.
Qed.

Lemma post_api_gaps_ok (req : Request) (now : Z) (db : Db) (res : Response) (db' : Db) :
  post_api_gaps req now db = Ok (res, db') ->
  exists row,
    res = reply (Json_gap row) /\
    docs_gaps db' = (docs_gaps db ++ [row])%list /\
    Gap.status row = Some "open" /\ Gap.created_at row = now /\
    Gap.ticket_id row = prepareValue (prop "ticket_id" (body req)) /\
    Gap.ticket_subject row = prepareValue (prop "ticket_subject" (body req)) /\
    Some (Gap.description row) = prepareValue (prop "description" (body req)) /\
    Gap.suggested_doc row = prepareValue (prop "suggested_doc" (body req)).
Proof.
  unfold post_api_gaps, insert_gap.
  destruct (varchar 100 _) as [ticket|] eqn:H1; simpl; [|discriminate].
  destruct (varchar 500 _) as [subject|] eqn:H2; simpl; [|discriminate].
  destruct (varchar 255 _) as [doc|] eqn:H3; simpl; [|discriminate].
  apply varchar_ok in H1, H2, H3. subst.
  destruct (prepareValue (prop "description" (body req))) as [descr|];
    simpl; [|discriminate].
  intros [= <- <-]. eexists. repeat split.
Qed.

Lemma post_api_reviews_ok (req : Request) (now : Z) (db : Db) (res : Response) (db' : Db) :
  post_api_reviews req now db = Ok (res, db') ->
  exists row,
    res = reply (Json_review row) /\
    docs_reviews db' = (docs_reviews db ++ [row])%list /\
    Review.reviewed_at row = now /\
    Some (Review.doc_slug row) = prepareValue (prop "doc_slug" (body req)) /\
    Review.doc_title row = prepareValue (prop "doc_title" (body req)) /\
    Review.notes row = prepareValue (prop "notes" (body req)).
Proof.
  unfold post_api_reviews, insert_review.
  destruct (varchar 255 _) as [slug|] eqn:H1; simpl; [|discriminate].
  destruct (varchar 500 _) as [title|] eqn:H2; simpl; [|discriminate].
  apply varchar_ok in H1, H2. subst.
  destruct (prepareValue (prop "doc_slug" (body req))) as [slug|];
    simpl; [|discriminate].
  intros [= <- <-]. eexists. repeat split.
Qed.

Lemma post_api_issues_runs (req : Request) (now : Z) (db : Db) (type descr : string) :
  prop "issue_type" (body req) = Text type ->
  prop "description" (body req) = Text descr ->
  fits 255 (prop "doc_slug" (body req)) ->
  fits 500 (prop "doc_title" (body req)) ->
  (String.length type <= 50)%nat ->
  exists res db', post_api_issues req now db = Ok (res, db').
Proof.
  intros Ht Hd H1 H2 H3. unfold post_api_issues, insert_issue.
  rewrite !varchar_prepare; try done.
  - rewrite Ht, Hd. simpl. eauto.
  - rewrite Ht. by intros s [= <-].
Qed.

Lemma post_api_gaps_runs (req : Request) (now : Z) (db : Db) (descr : string) :
  prop "description" (body req) = Text descr ->
  fits 100 (prop "ticket_id" (body req)) ->
  fits 500 (prop "ticket_subject" (body req)) ->
  fits 255 (prop "suggested_doc" (body req)) ->
  exists res db', post_api_gaps req now db = Ok (res, db').
Proof.
  intros Hd H1 H2 H3. unfold post_api_gaps, insert_gap.
  rewrite !varchar_prepare; try done. rewrite Hd. simpl. eauto.
Qed.

(** C4.  A [POST /api/issues] or [POST /api/gaps] that the store accepts
    appends one row, returns that row, and the row has status [open] and
    [created_at] equal to now, whatever the body holds, a [status] or a
    [created_at] of its own included; the store accepts the request when
    the required fields are there and the texts fit their columns. *)
Theorem post_forces_open_and_now :
  forall (req : Request) (now : Z) (db : Db),
    (forall res db',
       post_api_issues req now db = Ok (res, db') ->
       exists row,
         res = reply (Json_issue row) /\
         docs_issues db' = (docs_issues db ++ [row])%list /\
         Issue.status row = Some "open" /\
         Issue.created_at row = now) /\
    (forall res db',
       post_api_gaps req now db = Ok (res, db') ->
       exists row,
         res = reply (Json_gap row) /\
         docs_gaps db' = (docs_gaps db ++ [row])%list /\
         Gap.status row = Some "open" /\
         Gap.created_at row = now) /\
    (forall type descr,
       prop "issue_type" (body req) = Text type ->
       prop "description" (body req) = Text descr ->
       fits 255 (prop "doc_slug" (body req)) ->
       fits 500 (prop "doc_title" (body req)) ->
       (String.length type <= 50)%nat ->
       exists res db', post_api_issues req now db = Ok (res, db')) /\
    (forall descr,
       prop "description" (body req) = Text descr ->
       fits 100 (prop "ticket_id" (body req)) ->
       fits 500 (prop "ticket_subject" (body req)) ->
       fits 255 (prop "suggested_doc" (body req)) ->
       exists res db', post_api_gaps req now db = Ok (res, db')).
Proof.
  intros req now db. repeat split.
  - intros res db' H.
    destruct (post_api_issues_ok req now db res db' H) as (row & ? & ? & ? & ? & _).
    eauto.
  - intros res db' H.
    destruct (post_api_gaps_ok req now db res db' H) as (row & ? & ? & ? & ? & _).
    eauto.
  - intros. by eapply post_api_issues_runs.
  - intros. by eapply post_api_gaps_runs.
Qed.

Lemma post_forces_open_and_now_witness :
  exists res db' row,
    post_api_issues (body_request issue_body) 42 sample_db = Ok (res, db') /\
    res = reply (Json_issue row) /\
    docs_issues db' = [sample_issue; row] /\
    Issue.status row = Some "open" /\
    Issue.created_at row = 42.
Proof.
  destruct (post_forces_open_and_now (body_request issue_body) 42 sample_db)
    as (Hissue & _ & Hruns & _).
  destruct (Hruns "typo" "teh") as (res & db' & Hok).
  - by vm_compute.
  - by vm_compute.
  - intros s. vm_compute. intros [= <-]. vm_compute. lia.
  - intros s. vm_compute. discriminate.
  - vm_compute. lia.
  - destruct (Hissue res db' Hok) as (row & ? & ? & ? & ?).
    exists res, db', row. repeat split; done.
Defined.



(** ** Counts as text and back *)

Lemma small_cases (d : Z) :
  0 <= d < 10 ->
  d = 0 \/ d = 1 \/ d = 2 \/ d = 3 \/ d = 4 \/ d = 5 \/ d = 6 \/ d = 7 \/ d = 8 \/ d = 9.
Proof. lia. Qed.

Lemma digit_char_value (d : Z) :
  0 <= d < 10 -> digit 10 (digit_char d) = Some d /\ is_digit (digit_char d) = true.
Proof.
  intros H. destruct (small_cases d H) as [->|[->|[->|[->|[->|[->|[->|[->|[->| ->]]]]]]]]];
    by vm_compute.
Qed.

Lemma is_digit_cases (c : ascii) :
  is_digit c = true -> exists d, 0 <= d < 10 /\ c = digit_char d.
Proof.
  intros H. exists (Z.of_N (N_of_ascii c) - 48).
  unfold is_digit in H. apply andb_prop in H as [H1 H2].
  apply N.leb_le in H1, H2. split; [lia|].
  unfold digit_char. replace (48 + (Z.of_N (N_of_ascii c) - 48)) with (Z.of_N (N_of_ascii c)) by lia.
  by rewrite N2Z.id, ascii_N_embedding.
Qed.

Lemma digits_cons (radix acc d : Z) (read : nat) (c : ascii) (s : string) :
  digit radix c = Some d ->
  digits radix acc read (String c s) = digits radix (acc * radix + d) (S read) s.
Proof. intros H. simpl. by rewrite H. Qed.

Lemma decimal_acc_digits (fuel : nat) :
  forall (n : Z) (acc : string) (a : Z) (r : nat),
    0 <= n < Z.of_nat fuel ->
    exists k : nat,
      (1 <= k)%nat /\
      digits 10 a r (decimal_acc fuel n acc)
        = digits 10 (a * 10 ^ Z.of_nat k + n) (r + k) acc.
Proof.
  induction fuel as [|fuel IH]; intros n acc a r Hn; [lia|].
  simpl. assert (Hmod : 0 <= n mod 10 < 10) by (apply Z.mod_pos_bound; lia).
  destruct (Z.ltb_spec n 10) as [Hlt|Hge].
  - exists 1%nat. split; [lia|].
    rewrite Z.mod_small by lia.
    rewrite (digits_cons 10 a n) by (apply digit_char_value; lia).
    f_equal; lia.
  - destruct (IH (n / 10) (String (digit_char (n mod 10)) acc) a r) as (k & Hk & Heq).
    { split; [apply Z.div_pos; lia|].
      assert (n / 10 < n) by (apply Z.div_lt; lia). lia. }
    exists (S k). split; [lia|].
    unfold digit_char in Heq. rewrite Heq.
    rewrite (digits_cons 10 _ (n mod 10)) by (apply digit_char_value; lia).
    f_equal; [|lia].
    rewrite Nat2Z.inj_succ, Z.pow_succ_r by lia.
    pose proof (Z.div_mod n 10 ltac:(lia)). lia.
Qed.

Lemma decimal_acc_all_digits (fuel : nat) :
  forall (n : Z) (acc : string),
    0 <= n -> all_digits acc = true ->
    all_digits (decimal_acc (S fuel) n acc) = true /\
    decimal_acc (S fuel) n acc <> EmptyString.
Proof.
  assert (Hstep : forall n acc, 0 <= n -> all_digits acc = true ->
            all_digits (String (digit_char (n mod 10)) acc) = true).
  { intros n acc Hn Hacc. simpl. rewrite Hacc, andb_true_r.
    apply digit_char_value. apply Z.mod_pos_bound. lia. }
  induction fuel as [|fuel IH]; intros n acc Hn Hacc.
  - simpl. fold (digit_char (n mod 10)).
    destruct (n <? 10); (split; [by apply Hstep | done]).
  - change (decimal_acc (S (S fuel)) n acc)
      with (if n <? 10 then String (digit_char (n mod 10)) acc
            else decimal_acc (S fuel) (n / 10) (String (digit_char (n mod 10)) acc)).
    destruct (Z.ltb_spec n 10).
    + split; [by apply Hstep | done].
    + apply IH; [apply Z.div_pos; lia | by apply Hstep].
Qed.

Ltac digit_chars :=
  repeat match goal with
         | |- context [digit_char ?d] =>
             let c := eval vm_compute in (digit_char d) in
             change (digit_char d) with c
         end;
  unfold parseInt; cbn [trimStart];
  repeat match goal with
         | |- context [isWhiteSpace ?c] =>
             let b := eval vm_compute in (isWhiteSpace c) in
             change (isWhiteSpace c) with b
         end;
  cbn -[digits Z.mul].

(** [parseInt] reads a run of decimal digits in base ten. *)
Lemma parseInt_all_digits (s : string) :
  s <> EmptyString -> all_digits s = true ->
  parseInt s = match digits 10 0 0 s with
               | (_, O, _) => NaN
               | (v, S _, _) => Num v
               end.
Proof.
  destruct s as [|c s]; [done|]. intros _ H. simpl in H.
  apply andb_prop in H as [Hc Hs].
  destruct (is_digit_cases c Hc) as (d & Hd & ->).
  assert (Hsign : forall v : Z, 1 * v = v) by (intros; lia).
  destruct (small_cases d Hd) as [->|Hrest].
  - destruct s as [|c' s].
    + reflexivity.
    + clear Hc. simpl in Hs. apply andb_prop in Hs as [Hc' Hs].
      destruct (is_digit_cases c' Hc') as (d' & Hd' & ->).
      destruct (small_cases d' Hd') as [->|[->|[->|[->|[->|[->|[->|[->|[->| ->]]]]]]]]];
        digit_chars;
        destruct (digits _ _ _ _) as [[v [|k]] rest]; by rewrite ?Hsign.
  - destruct Hrest as [->|[->|[->|[->|[->|[->|[->|[->| ->]]]]]]]];
      digit_chars;
      destruct (digits _ _ _ _) as [[v [|k]] rest]; by rewrite ?Hsign.
Qed.

Lemma parseInt_decimal (n : nat) : parseInt (decimal n) = Num (Z.of_nat n).
Proof.
  unfold decimal.
  destruct (decimal_acc_all_digits n (Z.of_nat n) EmptyString) as [Hall Hne];
    [lia | done |].
  rewrite parseInt_all_digits by done.
  destruct (decimal_acc_digits (S n) (Z.of_nat n) EmptyString 0 0) as (k & Hk & ->);
    [lia|].
  destruct k; [lia|]. reflexivity.
Qed.

(** ** Stats *)

Lemma fold_counts_none (rows : list (option string * string)) (k : string) :
  forall acc : gmap string number,
    (forall r, In r rows -> property_key (fst r) <> k) ->
    fold_left (fun acc r => <[property_key (fst r) := parseInt (snd r)]> acc) rows acc !! k
      = acc !! k.
Proof.
  induction rows as [|r rows IH]; intros acc H; simpl; [done|].
  rewrite IH by (intros; apply H; by right).
  apply lookup_insert_ne. apply H. by left.
Qed.

Lemma fold_counts_some (rows : list (option string * string)) (k : string) (v : number) :
  forall acc : gmap string number,
    fold_left (fun acc r => <[property_key (fst r) := parseInt (snd r)]> acc) rows acc !! k
      = Some v ->
    acc !! k = Some v \/
    exists r, In r rows /\ property_key (fst r) = k /\ v = parseInt (snd r).
Proof.
  induction rows as [|r rows IH]; intros acc H; simpl in *; [by left|].
  destruct (IH _ H) as [Hacc|(r' & Hin & Hk & Hv)].
  - destruct (decide (property_key (fst r) = k)) as [Heq|Hne].
    + rewrite <- Heq, lookup_insert_eq in Hacc. injection Hacc as <-.
      right. exists r. auto.
    + rewrite lookup_insert_ne in Hacc by done. by left.
  - right. exists r'. auto.
Qed.

Lemma rows_with_status_pos (s : option string) (l : list (option string)) :
  In s l -> (1 <= rows_with_status s l)%nat.
Proof.
  unfold rows_with_status. induction l as [|x l IH]; simpl; [done|].
  intros [->|H].
  - rewrite bool_decide_eq_true_2 by done. simpl. lia.
  - destruct (bool_decide (x = s)); simpl; [lia | auto].
Qed.

Lemma count_group_by_status_in (l : list (option string)) (r : option string * string) :
  In r (count_group_by_status l) ->
  In (fst r) l /\ snd r = decimal (rows_with_status (fst r) l).
Proof.
  unfold count_group_by_status. rewrite in_map_iff.
  intros (s & <- & Hs). simpl. split; [|done].
  rewrite <- list_elem_of_In in Hs |- *.
  by rewrite elem_of_remove_dups in Hs.
Qed.

(** What the aggregate of one table says under a key: nothing when no row
    has a status with that key, else the count of the rows of one such
    status, which is at least one. *)
Lemma reduce_counts_spec (l : list (option string)) (k : string) :
  ((forall s, In s l -> property_key s <> k) ->
     reduce_counts (count_group_by_status l) !! k = None) /\
  (forall v, reduce_counts (count_group_by_status l) !! k = Some v ->
     exists s, In s l /\ property_key s = k /\
               v = Num (Z.of_nat (rows_with_status s l)) /\
               (1 <= rows_with_status s l)%nat).
Proof.
  unfold reduce_counts. split.
  - intros H. rewrite fold_counts_none; [done|].
    intros r Hr. apply count_group_by_status_in in Hr as [Hr _]. by apply H.
  - intros v Hv. apply fold_counts_some in Hv as [Hv|(r & Hr & Hk & ->)]; [done|].
    apply count_group_by_status_in in Hr as [Hr Hc].
    exists (fst r). rewrite Hc, parseInt_decimal.
    repeat split; try done. by apply rows_with_status_pos.
Qed.

(** C6.  On empty tables [GET /api/stats] answers
    [{issues: {}, gaps: {}, reviews: {total: 0, last_review: null}}]; on
    any tables, a key under which no row's status reads is absent from
    [issues] and from [gaps], and a key that is there holds the count of
    the rows of a status, never zero. *)
Theorem stats_has_no_empty_groups :
  forall (req : Request) (db : Db),
    (docs_reviews db = [] -> docs_issues db = [] -> docs_gaps db = [] ->
       get_api_stats req db
         = Ok ({| statusCode := 200; set_cookie := None;
                  payload := Json_stats {| stats_issues := ∅; stats_gaps := ∅;
                                           stats_reviews_total := Num 0;
                                           stats_reviews_last_review := Some None |} |},
               db)) /\
    exists s,
      get_api_stats req db = Ok (reply (Json_stats s), db) /\
      (forall k,
         (forall r, In r (docs_issues db) -> property_key (Issue.status r) <> k) ->
         stats_issues s !! k = None) /\
      (forall k,
         (forall r, In r (docs_gaps db) -> property_key (Gap.status r) <> k) ->
         stats_gaps s !! k = None) /\
      (forall k v,
         stats_issues s !! k = Some v ->
         exists st, property_key st = k /\ (exists r, In r (docs_issues db) /\ Issue.status r = st) /\
           v = Num (Z.of_nat (rows_with_status st (map Issue.status (docs_issues db)))) /\
           v <> Num 0) /\
      (forall k v,
         stats_gaps s !! k = Some v ->
         exists st, property_key st = k /\ (exists r, In r (docs_gaps db) /\ Gap.status r = st) /\
           v = Num (Z.of_nat (rows_with_status st (map Gap.status (docs_gaps db)))) /\
           v <> Num 0).
Proof.
  intros req db. split.
  - intros Hr Hi Hg. unfold get_api_stats, count_max_reviews. rewrite Hr, Hi, Hg.
    reflexivity.
  - eexists. split; [reflexivity|]. simpl. repeat split.
    + intros k H. apply reduce_counts_spec. intros s Hs.
      apply in_map_iff in Hs as (r & <- & Hr). by apply H.
    + intros k H. apply reduce_counts_spec. intros s Hs.
      apply in_map_iff in Hs as (r & <- & Hr). by apply H.
    + intros k v Hv. apply reduce_counts_spec in Hv as (st & Hin & Hk & -> & Hpos).
      exists st. repeat split; try done.
      * apply in_map_iff in Hin as (r & <- & Hr). eauto.
      * intros [= H]. lia.
    + intros k v Hv. apply reduce_counts_spec in Hv as (st & Hin & Hk & -> & Hpos).
      exists st. repeat split; try done.
      * apply in_map_iff in Hin as (r & <- & Hr). eauto.
      * intros [= H]. lia.
Qed.

Lemma stats_has_no_empty_groups_witness :
  get_api_stats blank_request empty_db
    = Ok ({| statusCode := 200; set_cookie := None;
             payload := Json_stats {| stats_issues := ∅; stats_gaps := ∅;
                                      stats_reviews_total := Num 0;
                                      stats_reviews_last_review := Some None |} |},
          empty_db).
Proof.
  apply (stats_has_no_empty_groups blank_request empty_db); reflexivity.
Defined.

(** One open issue: [issues] is [{open: 1}], with no entry for [resolved]. *)
Example stats_one_open_issue :
  exists s,
    get_api_stats blank_request sample_db = Ok (reply (Json_stats s), sample_db) /\
    stats_issues s !! "open" = Some (Num 1) /\
    stats_issues s !! "resolved" = None /\
    stats_gaps s = ∅ /\
    stats_reviews_total s = Num 0.
Proof. eexists. split; [reflexivity|]. by vm_compute. Qed.

(** A row whose status is [NULL] is counted under the key ["null"]. *)
Example stats_null_status :
  exists s,
    get_api_stats blank_request null_status_db
      = Ok (reply (Json_stats s), null_status_db) /\
    stats_issues s !! "null" = Some (Num 1).
Proof. eexists. split; [reflexivity|]. by vm_compute. Qed.

(** ** Start-up *)

Section StartupFacts.

Context {Server : Type} (create : Table -> Server -> Result Server).

Lemma boot_cases (env : Env) (s : Server) :
  (exists s1 s2 s3,
     create Docs_reviews s = Ok s1 /\ create Docs_issues s1 = Ok s2 /\
     create Docs_gaps s2 = Ok s3 /\
     fst (boot Server create env s) = Ok tt /\
     events (snd (boot Server create env s)) =
       [Created Docs_reviews; Created Docs_issues; Created Docs_gaps;
        Logged "Database tables ready";
        Listening (or_default (PORT env) "3000");
        Logged ("Doc tracker running on port " ++ or_default (PORT env) "3000")]) \/
  ((exists e, fst (boot Server create env s) = Err e) /\
   exists t done,
     events (snd (boot Server create env s)) = (map Created done ++ [Failed t])%list /\
     ((exists e, create Docs_reviews s = Err e) \/
      (exists s1 e, create Docs_reviews s = Ok s1 /\ create Docs_issues s1 = Err e) \/
      (exists s1 s2 e, create Docs_reviews s = Ok s1 /\ create Docs_issues s1 = Ok s2 /\
                       create Docs_gaps s2 = Err e))).
Proof.
  unfold boot, main, setupDb, andThen, pool_query, listen, console_log, record.
  simpl.
  destruct (create Docs_reviews s) as [s1|e1] eqn:H1; simpl.
  - destruct (create Docs_issues s1) as [s2|e2] eqn:H2; simpl.
    + destruct (create Docs_gaps s2) as [s3|e3] eqn:H3; simpl.
      * left. exists s1, s2, s3. by repeat split.
      * right. split; [eauto|].
        exists Docs_gaps, [Docs_reviews; Docs_issues]. split; [done|].
        right. right. eauto 6.
    + right. split; [eauto|].
      exists Docs_issues, [Docs_reviews]. split; [done|]. right. left. eauto.
  - right. split; [eauto|].
    exists Docs_reviews, []. split; [done|]. left. eauto.
Qed.

End StartupFacts.

Lemma no_listening_in_failure (done : list Table) (t : Table) (port : string) :
  ~ In (Listening port) (map Created done ++ [Failed t]).
Proof.
  rewrite in_app_iff, in_map_iff.
  intros [(x & Hx & _)|[Hx|[]]]; discriminate Hx.
Qed.

(** C9.  The process starts listening exactly when the three
    [CREATE TABLE IF NOT EXISTS] statements have all succeeded, one after
    the other, and then only after them; when one of them fails the
    promise of [setupDb] is rejected, the later statements are not sent
    and [app.listen] is never called. *)
Theorem listens_only_after_three_tables :
  forall (Server : Type) (create : Table -> Server -> Result Server)
         (env : Env) (s : Server),
    ((exists port, In (Listening port) (events (snd (boot Server create env s)))) <->
     (exists s1 s2 s3,
        create Docs_reviews s = Ok s1 /\ create Docs_issues s1 = Ok s2 /\
        create Docs_gaps s2 = Ok s3)) /\
    (forall port,
       In (Listening port) (events (snd (boot Server create env s))) ->
       exists after,
         events (snd (boot Server create env s)) =
           ([Created Docs_reviews; Created Docs_issues; Created Docs_gaps;
             Logged "Database tables ready"; Listening port] ++ after)%list) /\
    (forall t,
       In (Failed t) (events (snd (boot Server create env s))) ->
       (exists e, fst (boot Server create env s) = Err e) /\
       forall port, ~ In (Listening port) (events (snd (boot Server create env s)))).
Proof.
  intros Server create env s.
  destruct (boot_cases create env s)
    as [(s1 & s2 & s3 & H1 & H2 & H3 & Hok & Hev)
       |(Herr & t & done & Hev & Hwhy)]; rewrite Hev.
  - split; [|split].
    + split; [eauto 6|]. intros _. eexists. simpl. do 4 right. by left.
    + intros port Hin. simpl in Hin.
      destruct Hin as [H|[H|[H|[H|[H|[H|[]]]]]]]; try discriminate H.
      injection H as <-. eexists. reflexivity.
    + intros t Hin. simpl in Hin.
      destruct Hin as [H|[H|[H|[H|[H|[H|[]]]]]]]; discriminate H.
  - split; [|split].
    + split.
      * intros [port Hin]. by apply no_listening_in_failure in Hin.
      * intros (s1 & s2 & s3 & H1 & H2 & H3).
        destruct Hwhy as [(e & He)|[(s1' & e & H1' & He)|(s1' & s2' & e & H1' & H2' & He)]];
          congruence.
    + intros port Hin. by apply no_listening_in_failure in Hin.
    + intros t' _. split; [done|]. intros port. apply no_listening_in_failure.
Qed.

Lemma listens_only_after_three_tables_witness :
  exists after,
    events (snd (boot unit (fun _ s => Ok s)
                      {| APP_TOKEN := Some "s3cret"; PORT := None |} tt)) =
      ([Created Docs_reviews; Created Docs_issues; Created Docs_gaps;
        Logged "Database tables ready"; Listening "3000"] ++ after)%list.
Proof.
  apply (listens_only_after_three_tables unit (fun _ s => Ok s)
           {| APP_TOKEN := Some "s3cret"; PORT := None |} tt).
  simpl. do 4 right. by left.
Defined.

(** A server that refuses the second statement: the third is never sent
    and nothing listens. *)
Example boot_second_table_fails :
  boot unit (fun t s => match t with
                        | Docs_issues => Err (failure "connection refused")
                        | _ => Ok s
                        end)
       {| APP_TOKEN := Some "s3cret"; PORT := None |} tt
  = (Err (failure "connection refused"),
     {| server := tt; events := [Created Docs_reviews; Failed Docs_issues] |}).
Proof. reflexivity. Qed.

Example boot_all_tables_created :
  events (snd (boot unit (fun _ s => Ok s)
                    {| APP_TOKEN := Some "s3cret"; PORT := Some "8080" |} tt))
  = [Created Docs_reviews; Created Docs_issues; Created Docs_gaps;
     Logged "Database tables ready"; Listening "8080";
     Logged "Doc tracker running on port 8080"].
Proof. reflexivity. Qed.

(** * Further properties *)

(** ** Splitting and trimming *)

Lemma split_app (sep : ascii) (a b : string) :
  ~ In sep (list_ascii_of_string a) ->
  split sep (a ++ String sep b) = a :: split sep b.
Proof.
  induction a as [|c a IH]; intros Ha.
  - simpl. by rewrite Ascii.eqb_refl.
  - change (String c a ++ String sep b) with (String c (a ++ String sep b)).
    rewrite split_cons by (intros ->; apply Ha; by left).
    rewrite IH by (intros H; apply Ha; by right). reflexivity.
Qed.

Lemma split_whole (sep : ascii) (s : string) :
  ~ In sep (list_ascii_of_string s) -> split sep s = [s].
Proof.
  induction s as [|c s IH]; intros Hs; [done|].
  rewrite split_cons by (intros ->; apply Hs; by left).
  rewrite IH by (intros H; apply Hs; by right). reflexivity.
Qed.

Lemma split_pieces (sep : ascii) (s : string) :
  forall p, In p (split sep s) ->
    ~ In sep (list_ascii_of_string p) /\
    forall c, In c (list_ascii_of_string p) -> In c (list_ascii_of_string s).
Proof.
  induction s as [|c s IH]; intros p Hp.
  - destruct Hp as [<-|[]]. split; [intros [] | done].
  - simpl in Hp. destruct (Ascii.eqb_spec c sep) as [->|Hne].
    + destruct Hp as [<-|Hp]; [split; [intros [] | intros ? []]|].
      destruct (IH p Hp) as [H1 H2]. split; [done|]. intros x Hx. right. auto.
    + destruct (split sep s) as [|hd tl] eqn:Hsplit.
      * destruct Hp as [<-|[]]. split.
        -- intros [H|[]]. by subst.
        -- intros x [<-|[]]. by left.
      * destruct Hp as [<-|Hp].
        -- destruct (IH hd (or_introl eq_refl)) as [H1 H2]. split.
           ++ intros [H|H]; [by subst | done].
           ++ intros x [<-|Hx]; [by left | right; auto].
        -- destruct (IH p (or_intror Hp)) as [H1 H2]. split; [done|].
           intros x Hx. right. auto.
Qed.

Lemma trimStart_chars (s : string) (c : ascii) :
  In c (list_ascii_of_string (trimStart s)) -> In c (list_ascii_of_string s).
Proof.
  induction s as [|x s IH]; simpl; [done|].
  destruct (isWhiteSpace x); [right; auto | done].
Qed.

Lemma trimEnd_chars (s : string) (c : ascii) :
  In c (list_ascii_of_string (trimEnd s)) -> In c (list_ascii_of_string s).
Proof.
  induction s as [|x s IH]; simpl; [done|].
  destruct (trimEnd s) as [|y t].
  - destruct (isWhiteSpace x); simpl; [done | intros [<-|[]]; by left].
  - intros [<-|H]; [by left | right; auto].
Qed.

Lemma trim_chars (s : string) (c : ascii) :
  In c (list_ascii_of_string (trim s)) -> In c (list_ascii_of_string s).
Proof. intros H. by apply trimStart_chars, trimEnd_chars. Qed.


(** ** What the cookie parser leaves in [req.cookies] *)

Lemma cookieParser_next (req : Request) :
  exists o,
    cookieParser req = Next (with_cookies o req) /\
    (o = ∅ \/
     exists header, cookie req = Some header /\ header <> EmptyString /\
                    o = fold_left parse_cookie (split ";" header) ∅).
Proof.
  unfold cookieParser. destruct (cookie req) as [h|]; [|eauto].
  destruct h as [|c h]; simpl; [eauto|].
  eexists. split; [reflexivity|]. right. eexists. by repeat split.
Qed.

Lemma parse_cookie_clean (o : gmap string (option string)) (seg : string) :
  ~ In ";"%char (list_ascii_of_string seg) ->
  clean_cookies o -> clean_cookies (parse_cookie o seg).
Proof.
  intros Hseg [Hproto Hclean].
  assert (Hpiece : forall p, In p (split "=" (trim seg)) -> clean p).
  { intros p Hp. destruct (split_pieces "=" (trim seg) p Hp) as [H1 H2].
    split; [done|]. intros H. apply Hseg. by apply trim_chars, H2. }
  assert (Hassign : forall name value,
            clean name -> (forall t, value = Some t -> clean t) ->
            clean_cookies (assign name value o)).
  { intros name value Hn Hv. unfold assign.
    destruct (String.eqb_spec name "__proto__") as [->|Hne]; [by split|]. split.
    - by rewrite lookup_insert_ne.
    - intros k v. destruct (decide (name = k)) as [<-|Hk].
      + rewrite lookup_insert_eq. intros [= <-]. by split.
      + rewrite lookup_insert_ne by done. apply Hclean. }
  unfold parse_cookie.
  destruct (split "=" (trim seg)) as [|name [|value rest]] eqn:Hsplit.
  - apply Hassign; [|done]. split; simpl; intuition discriminate.
  - apply Hassign; [|done]. apply Hpiece. by left.
  - apply Hassign.
    + apply Hpiece. by left.
    + intros t [= <-]. apply Hpiece. right. by left.
Qed.

Lemma fold_parse_cookie_clean (segs : list string) :
  forall o : gmap string (option string),
    (forall seg, In seg segs -> ~ In ";"%char (list_ascii_of_string seg)) ->
    clean_cookies o -> clean_cookies (fold_left parse_cookie segs o).
Proof.
  induction segs as [|seg segs IH]; intros o Hsegs Ho; simpl; [done|].
  apply IH; [intros; apply Hsegs; by right|].
  apply parse_cookie_clean; [apply Hsegs; by left | done].
Qed.

Lemma cookieParser_clean (req : Request) :
  exists o, cookieParser req = Next (with_cookies o req) /\ clean_cookies o.
Proof.
  destruct (cookieParser_next req) as (o & Hnext & Ho).
  exists o. split; [done|].
  destruct Ho as [->|(h & _ & _ & ->)]; [by split|].
  apply fold_parse_cookie_clean; [|by split].
  intros seg Hseg. by apply (split_pieces ";" h).
Qed.

(** X1.  Whatever the Cookie header, the object the parser leaves in
    [req.cookies] has no own property [__proto__], and neither a name nor
    a value in it holds a [=] or a [;]; the rest of the request is handed
    on as it came. *)
Theorem parsed_cookies_are_clean :
  forall req : Request,
    exists req',
      cookieParser req = Next req' /\
      authorization req' = authorization req /\
      query req' = query req /\ body req' = body req /\
      cookies req' !! "__proto__" = None /\
      forall name value,
        cookies req' !! name = Some value ->
        clean name /\ forall text, value = Some text -> clean text.
Proof.
  intros req. destruct (cookieParser_clean req) as (o & Hnext & Hproto & Hclean).
  exists (with_cookies o req). do 5 (split; [done|]). exact Hclean.
Qed.

(** ** Cookies and the secret *)

Lemma app_blocked (env : Env) (now : Z) (rt : Route) (req : Request) (db : Db)
    (o : gmap string (option string)) :
  rt <> GET_auth ->
  cookieParser req = Next (with_cookies o req) ->
  requireAuth env (with_cookies o req) = Respond unauthorized ->
  app env now rt req db = Blocked unauthorized.
Proof.
  intros Hrt Hparse Hgate. unfold app. rewrite Hparse.
  destruct (route_api_guarded env now rt (with_cookies o req) db Hrt) as [h ->].
  unfold guarded. by rewrite Hgate.
Qed.


(** X2.  A secret that holds a [=] or a [;] can never be presented as a
    cookie: whatever Cookie header a request sends, it is answered 401 on
    every gated route unless its Authorization header carries the secret
    as a bearer token. *)
Theorem secret_with_separator_needs_bearer :
  forall (secret : string) (port : option string) (rt : Route) (now : Z)
         (req : Request) (db : Db),
    In "="%char (list_ascii_of_string secret) \/
    In ";"%char (list_ascii_of_string secret) ->
    rt <> GET_auth ->
    bearer_token req <> Some secret ->
    app {| APP_TOKEN := Some secret; PORT := port |} now rt req db
      = Blocked unauthorized.
Proof.
  intros secret port rt now req db Hsep Hrt Hbearer.
  destruct (cookieParser_clean req) as (o & Hparse & _ & Hclean).
  apply (app_blocked _ _ _ _ _ o); [done | done |].
  apply requireAuth_neither; [by left|].
  unfold cookie_token, read. simpl. intros Hcookie.
  destruct (o !! "app_token") as [value|] eqn:Hlookup; simpl in Hcookie; [|done].
  destruct (Hclean _ _ Hlookup) as [_ Hvalue].
  destruct (Hvalue secret Hcookie) as [H1 H2]. tauto.
Qed.

Lemma secret_with_separator_needs_bearer_witness :
  app {| APP_TOKEN := Some "c2VjcmV0=="; PORT := None |} 0 GET_api_stats
      (cookie_request "app_token=c2VjcmV0==") empty_db
    = Blocked unauthorized.
Proof.
  apply secret_with_separator_needs_bearer.
  - left. simpl. tauto.
  - discriminate.
  - discriminate.
Defined.





(** X4.  Of several cookies with one name the last one counts: when the
    header splits at its [;] into segments, one of which trims to
    [name=value], and no later segment has that name, [req.cookies[name]]
    is that value. *)
Theorem last_cookie_of_a_name_wins :
  forall (req : Request) (header : string) (before after : list string)
         (seg name value : string),
    cookie req = Some header ->
    split ";" header = (before ++ seg :: after)%list ->
    trim seg = name ++ String "=" value ->
    ~ In "="%char (list_ascii_of_string name) ->
    ~ In "="%char (list_ascii_of_string value) ->
    name <> "__proto__" ->
    ~ In name (map segment_name after) ->
    exists req',
      cookieParser req = Next req' /\ read name (cookies req') = Some value.
Proof.
  intros req header before after seg name value Hc Hsplit Htrim Hn Hv Hproto Hlast.
  assert (Hne : header <> EmptyString).
  { intros ->. destruct before as [|x [|y before]]; simpl in Hsplit; try discriminate.
    injection Hsplit as <- _. destruct name; discriminate Htrim. }
  exists (with_cookies (fold_left parse_cookie (split ";" header) ∅) req). split.
  - unfold cookieParser. rewrite Hc. destruct header; [done | reflexivity].
  - unfold read. simpl. rewrite Hsplit, fold_left_app. simpl.
    rewrite fold_parse_cookie_other by done.
    unfold parse_cookie. rewrite Htrim, split_app, split_whole by done.
    unfold assign. destruct (String.eqb_spec name "__proto__"); [done|].
    by rewrite lookup_insert_eq.
Qed.

Lemma last_cookie_of_a_name_wins_witness :
  exists req',
    cookieParser (cookie_request "app_token=old; theme=dark ;app_token=new; lang=en")
      = Next req' /\
    read "app_token" (cookies req') = Some "new".
Proof.
  apply (last_cookie_of_a_name_wins
           (cookie_request "app_token=old; theme=dark ;app_token=new; lang=en")
           "app_token=old; theme=dark ;app_token=new; lang=en"
           ["app_token=old"; " theme=dark "] [" lang=en"]
           "app_token=new" "app_token" "new");
    try reflexivity; try discriminate; simpl; intuition discriminate.
Defined.

(** X5.  With [APP_TOKEN] unset the Authorization header never matters:
    the gate lets a request through exactly when [req.cookies.app_token]
    is [undefined].  [/auth] called without a token then "succeeds" and
    sets the cookie [app_token=undefined], and a browser that sends this
    cookie back is answered 401 on every gated route. *)
Theorem unset_secret_login_locks_out :
  forall (port : option string) (rt : Route) (now : Z) (req : Request) (db : Db),
    (requireAuth {| APP_TOKEN := None; PORT := port |} req = Next req <->
     cookie_token req = None) /\
    (query req !! "token" = None ->
       auth {| APP_TOKEN := None; PORT := port |} req
         = {| statusCode := 302;
              set_cookie :=
                Some "app_token=undefined; Path=/; HttpOnly; SameSite=Strict; Max-Age=31536000";
              payload := Redirect "/" |}) /\
    (rt <> GET_auth ->
       app {| APP_TOKEN := None; PORT := port |} now rt
           {| authorization := authorization req; cookie := Some "app_token=undefined";
              cookies := ∅; query := query req; body := body req |} db
         = Blocked unauthorized).
Proof.
  intros port rt now req db. split; [|split].
  - split.
    + intros Hnext. destruct (cookie_token req) as [v|] eqn:Hv; [|done].
      rewrite requireAuth_neither in Hnext; [done | by right | by rewrite Hv].
    + intros Hv. by apply requireAuth_cookie.
  - intros Hq. unfold auth. rewrite Hq. reflexivity.
  - intros Hrt.
    apply (app_blocked _ _ _ _ _ {[ "app_token" := Some "undefined" ]});
      [done | reflexivity |].
    apply requireAuth_neither; [by right|]. by vm_compute.
Qed.

Lemma unset_secret_login_locks_out_witness :
  app {| APP_TOKEN := None; PORT := None |} 0 GET_api_issues
      {| authorization := authorization bearer_request;
         cookie := Some "app_token=undefined";
         cookies := ∅; query := query bearer_request; body := body bearer_request |}
      empty_db
    = Blocked unauthorized.
Proof.
  apply (unset_secret_login_locks_out None GET_api_issues 0 bearer_request empty_db).
  discriminate.
Defined.



(** ** What a request does to the database *)

Lemma app_handled_inv (env : Env) (now : Z) (rt : Route) (req : Request) (db : Db)
    (out : Result (Response * Db)) :
  app env now rt req db = Handled out ->
  exists req', out = handle env now rt req' db.
Proof.
  unfold app. destruct (cookieParser req) as [req'|]; [|discriminate].
  destruct rt; simpl; unfold guarded;
    try (destruct (requireAuth env req') as [req''|]; [|discriminate]);
    intros [= <-]; eauto.
Qed.

Lemma handle_step (env : Env) (now : Z) (rt : Route) (req : Request) (db : Db)
    (res : Response) (db' : Db) :
  handle env now rt req db = Ok (res, db') -> Step db db'.
Proof.
  destruct rt; simpl;
    try (intros [= _ <-]; by apply step_none).
  - unfold post_api_reviews, insert_review.
    destruct (varchar 255 _); simpl; [|discriminate].
    destruct (varchar 500 _); simpl; [|discriminate].
    destruct (not_null _ _); simpl; [|discriminate].
    intros [= _ <-]. eapply step_insert_review; [|reflexivity]. reflexivity.
  - unfold post_api_issues, insert_issue.
    destruct (varchar 255 _); simpl; [|discriminate].
    destruct (varchar 500 _); simpl; [|discriminate].
    destruct (varchar 50 _); simpl; [|discriminate].
    destruct (not_null _ _); simpl; [|discriminate].
    destruct (not_null _ _); simpl; [|discriminate].
    intros [= _ <-]. eapply step_insert_issue; [|reflexivity]. reflexivity.
  - unfold patch_api_issues_id, update_issue.
    destruct (int4 id) as [n|]; simpl; [|discriminate].
    destruct (varchar 20 _); simpl; [|discriminate].
    intros [= _ <-]. eapply step_update_issues; [|reflexivity].
    intros r. simpl. by destruct (Issue.id r =? n).
  - unfold post_api_gaps, insert_gap.
    destruct (varchar 100 _); simpl; [|discriminate].
    destruct (varchar 500 _); simpl; [|discriminate].
    destruct (varchar 255 _); simpl; [|discriminate].
    destruct (not_null _ _); simpl; [|discriminate].
    intros [= _ <-]. eapply step_insert_gap; [|reflexivity]. reflexivity.
  - unfold patch_api_gaps_id, update_gap.
    destruct (int4 id) as [n|]; simpl; [|discriminate].
    destruct (varchar 20 _); simpl; [|discriminate].
    destruct (varchar 255 _); simpl; [|discriminate].
    intros [= _ <-]. eapply step_update_gaps; [|reflexivity].
    intros r. simpl. by destruct (Gap.id r =? n).
Qed.

Lemma app_step (env : Env) (now : Z) (rt : Route) (req : Request) (db : Db)
    (res : Response) (db' : Db) :
  app env now rt req db = Handled (Ok (res, db')) -> Step db db'.
Proof.
  intros H. apply app_handled_inv in H as [req' H].
  symmetry in H. by eapply handle_step.
Qed.

Lemma ids_fresh_append {A : Type} (id : A -> Z) (next : Z) (rows : list A) (row : A) :
  id row = next -> ids_fresh id next rows -> ids_fresh id (next + 1) (rows ++ [row]).
Proof.
  intros Hid [Hnodup Hbelow]. split.
  - rewrite map_app. simpl. apply NoDup_app. split; [done|]. split.
    + intros x Hx [<-|[]]%list_elem_of_In.
      apply list_elem_of_In, in_map_iff in Hx as (r & Hr & Hin).
      specialize (Hbelow r Hin). lia.
    + apply NoDup_singleton.
  - intros r [Hr|[<-|[]]]%in_app_iff; [specialize (Hbelow r Hr)|]; lia.
Qed.

Lemma ids_fresh_update {A : Type} (id : A -> Z) (next : Z) (rows : list A) (f : A -> A) :
  (forall r, id (f r) = id r) ->
  ids_fresh id next rows -> ids_fresh id next (map f rows).
Proof.
  intros Hf [Hnodup Hbelow]. split.
  - rewrite map_map. by rewrite (map_ext _ id).
  - intros r (r0 & <- & Hr0)%in_map_iff. rewrite Hf. auto.
Qed.

(** X7.  Ids stay unique: the empty database has, and every request the
    application handles keeps, the ids of each table pairwise distinct and
    below the next value of the table's sequence. *)
Theorem ids_stay_unique :
  consistent empty_db /\
  forall (env : Env) (now : Z) (rt : Route) (req : Request) (db : Db)
         (res : Response) (db' : Db),
    consistent db ->
    app env now rt req db = Handled (Ok (res, db')) ->
    consistent db'.
Proof.
  split.
  - repeat split; simpl; try constructor; intros r [].
  - intros env now rt req db res db' (Hr & Hi & Hg) Happ.
    apply app_step in Happ.
    destruct Happ as [->|row Hid ->|row Hid ->|row Hid ->|f Hf ->|f Hf ->];
      unfold consistent; simpl; (split; [|split]); try done;
      try (by apply ids_fresh_append).
    + apply ids_fresh_update; [|done]. intros r. by injection (Hf r).
    + apply ids_fresh_update; [|done]. intros r. by injection (Hf r).
Qed.

Lemma ids_stay_unique_witness : consistent db_with_created_review.
Proof.
  apply (proj2 ids_stay_unique {| APP_TOKEN := None; PORT := None |} 42
           POST_api_reviews (body_request review_body) empty_db
           (reply (Json_review created_review)) db_with_created_review).
  - apply ids_stay_unique.
  - by vm_compute.
Defined.

(** X8.  Nothing is ever deleted or rewritten beyond what a [PATCH] names:
    after any request the application handles, the reviews that were there
    are still there, unchanged and in place, and so are the issues and the
    gaps as far as their id, their creation time and the columns filled at
    creation go; new rows only come after them. *)
Theorem rows_are_never_deleted :
  forall (env : Env) (now : Z) (rt : Route) (req : Request) (db : Db)
         (res : Response) (db' : Db),
    app env now rt req db = Handled (Ok (res, db')) ->
    docs_reviews db `prefix_of` docs_reviews db' /\
    map issue_fixed (docs_issues db) `prefix_of` map issue_fixed (docs_issues db') /\
    map gap_fixed (docs_gaps db) `prefix_of` map gap_fixed (docs_gaps db').
Proof.
  intros env now rt req db res db' Happ. apply app_step in Happ.
  destruct Happ as [->|row Hid ->|row Hid ->|row Hid ->|f Hf ->|f Hf ->];
    simpl; (split; [|split]); try done;
    try (by apply prefix_app_r);
    try (rewrite map_app; by apply prefix_app_r).
  - rewrite map_map. by rewrite (map_ext (fun r => issue_fixed (f r)) issue_fixed).
  - rewrite map_map. by rewrite (map_ext (fun r => gap_fixed (f r)) gap_fixed).
Qed.

Lemma rows_are_never_deleted_witness :
  docs_reviews sample_db `prefix_of` docs_reviews resolved_db /\
  map issue_fixed (docs_issues sample_db)
    `prefix_of` map issue_fixed (docs_issues resolved_db) /\
  map gap_fixed (docs_gaps sample_db) `prefix_of` map gap_fixed (docs_gaps resolved_db).
Proof.
  apply (rows_are_never_deleted open_env 20 (PATCH_api_issues_id "1")
           resolve_request sample_db (reply (Json_issue resolved_issue)) resolved_db).
  by vm_compute.
Defined.

(** ** Which bodies a [POST] accepts *)





(** ** Listing reviews *)

(** X10.  [GET /api/reviews] answers 200 with every review, each once,
    newest first, and leaves the database as it was. *)
Theorem reviews_listed_newest_first :
  forall (req : Request) (db : Db),
    exists rows,
      get_api_reviews req db
        = Ok ({| statusCode := 200; set_cookie := None;
                 payload := Json_reviews rows |}, db) /\
      Permutation rows (docs_reviews db) /\
      Sorted (desc Review.reviewed_at) rows.
Proof.
  intros req db. eexists. split; [reflexivity|]. split.
  - apply order_by_desc_perm.
  - apply order_by_desc_sorted.
Qed.

(** ** Updating one row *)

Lemma update_none {A : Type} (id : A -> Z) (set : A -> A) (n : Z) (rows : list A) :
  (forall r, In r rows -> id r <> n) ->
  List.filter (fun r => id r =? n) rows = [] /\
  map (fun r => if id r =? n then set r else r) rows = rows.
Proof.
  induction rows as [|x rows IH]; intros H; simpl; [done|].
  destruct (Z.eqb_spec (id x) n) as [Heq|_]; [exfalso; apply (H x); [by left | done]|].
  destruct IH as [-> ->]; [intros; apply H; by right | done].
Qed.

Lemma update_unique {A : Type} (id : A -> Z) (set : A -> A) (n : Z) (rows : list A) :
  NoDup (map id rows) ->
  forall (i : nat) (r : A),
    rows !! i = Some r -> id r = n ->
    List.filter (fun r => id r =? n) rows = [r] /\
    map (fun r => if id r =? n then set r else r) rows = <[i := set r]> rows.
Proof.
  induction rows as [|x rows IH]; intros Hnodup i r Hi Hid; [done|].
  simpl in Hnodup. apply NoDup_cons in Hnodup as [Hx Hnodup].
  destruct i as [|i]; simpl in Hi.
  - injection Hi as ->. simpl. rewrite Hid, Z.eqb_refl.
    destruct (update_none id set n rows) as [-> ->]; [|done].
    intros y Hy Heq. apply Hx. rewrite Hid, <- Heq.
    apply list_elem_of_In, in_map, Hy.
  - assert (Hne : id x <> n).
    { intros Heq. apply Hx. rewrite Heq, <- Hid.
      apply list_elem_of_In, in_map, list_elem_of_In. by eapply list_elem_of_lookup_2. }
    simpl. destruct (Z.eqb_spec (id x) n); [done|].
    destruct (IH Hnodup i r Hi Hid) as [-> ->]. done.
Qed.

(** X11.  [PATCH /api/gaps/:id] on a table with distinct ids, for the id
    of a row and values that fit their columns: the answer is that row
    with [status] and [doc_created_slug] set to the values of the body (an
    absent field writes [NULL]), its other columns kept; the row is stored
    in place of the old one and every other row and table is untouched. *)
Theorem patch_gap_updates_one_row :
  forall (id : string) (n : Z) (req : Request) (db : Db) (i : nat) (r : Gap.t),
    int4 id = Ok n ->
    NoDup (map Gap.id (docs_gaps db)) ->
    docs_gaps db !! i = Some r -> Gap.id r = n ->
    fits 20 (prop "status" (body req)) ->
    fits 255 (prop "doc_created_slug" (body req)) ->
    exists r' db',
      patch_api_gaps_id id req db = Ok (reply (Json_gap r'), db') /\
      docs_gaps db' = <[i := r']> (docs_gaps db) /\
      docs_reviews db' = docs_reviews db /\ docs_issues db' = docs_issues db /\
      Gap.status r' = prepareValue (prop "status" (body req)) /\
      Gap.doc_created_slug r' = prepareValue (prop "doc_created_slug" (body req)) /\
      gap_fixed r' = gap_fixed r.
Proof.
  intros id n req db i r Hid Hnodup Hi Hr F1 F2.
  unfold patch_api_gaps_id, update_gap. rewrite Hid. simpl.
  rewrite !varchar_prepare by done. simpl.
  match goal with
  | |- context [List.filter _ (docs_gaps db)] =>
      match goal with
      | |- context [map ?set (List.filter _ _)] =>
          destruct (update_unique Gap.id set n (docs_gaps db) Hnodup i r Hi Hr)
            as [Hfilter Hmap]
      end
  end.
  rewrite Hfilter. simpl. do 2 eexists. split; [reflexivity|]. simpl.
  split; [exact Hmap|]. by repeat split.
Qed.

Lemma patch_gap_updates_one_row_witness :
  exists r' db',
    patch_api_gaps_id "1" close_gap_request gaps_db = Ok (reply (Json_gap r'), db') /\
    docs_gaps db' = <[0%nat := r']> (docs_gaps gaps_db) /\
    docs_reviews db' = docs_reviews gaps_db /\ docs_issues db' = docs_issues gaps_db /\
    Gap.status r' = prepareValue (prop "status" (body close_gap_request)) /\
    Gap.doc_created_slug r'
      = prepareValue (prop "doc_created_slug" (body close_gap_request)) /\
    gap_fixed r' = gap_fixed sample_gap.
Proof.
  apply (patch_gap_updates_one_row "1" 1 close_gap_request gaps_db 0%nat sample_gap).
  - by vm_compute.
  - simpl. apply NoDup_singleton.
  - reflexivity.
  - reflexivity.
  - intros s. vm_compute. intros [= <-]. vm_compute. lia.
  - intros s. vm_compute. intros [= <-]. vm_compute. lia.
Defined.



(** X13.  [PATCH /api/issues/:id] on a table with distinct ids, for the id
    of a row and a status that fits: the row in the answer is the row now
    stored in place of the old one, its columns other than [status],
    [resolution_notes] and [resolved_at] are those of the old row, and
    every other row and table is untouched. *)
Theorem patch_issue_returns_stored_row :
  forall (id : string) (n : Z) (req : Request) (now : Z) (db : Db)
         (i : nat) (r : Issue.t),
    int4 id = Ok n ->
    NoDup (map Issue.id (docs_issues db)) ->
    docs_issues db !! i = Some r -> Issue.id r = n ->
    fits 20 (prop "status" (body req)) ->
    exists r' db',
      patch_api_issues_id id req now db = Ok (reply (Json_issue r'), db') /\
      docs_issues db' = <[i := r']> (docs_issues db) /\
      docs_reviews db' = docs_reviews db /\ docs_gaps db' = docs_gaps db /\
      Issue.status r' = prepareValue (prop "status" (body req)) /\
      Issue.resolution_notes r' = prepareValue (prop "resolution_notes" (body req)) /\
      issue_fixed r' = issue_fixed r.
Proof.
  intros id n req now db i r Hid Hnodup Hi Hr F1.
  unfold patch_api_issues_id, update_issue. rewrite Hid. simpl.
  rewrite varchar_prepare by done. simpl.
  match goal with
  | |- context [map ?set (List.filter _ _)] =>
      destruct (update_unique Issue.id set n (docs_issues db) Hnodup i r Hi Hr)
        as [Hfilter Hmap]
  end.
  rewrite Hfilter. simpl. do 2 eexists. split; [reflexivity|]. simpl.
  split; [exact Hmap|]. by repeat split.
Qed.

Lemma patch_issue_returns_stored_row_witness :
  exists r' db',
    patch_api_issues_id "1" resolve_request 20 sample_db
      = Ok (reply (Json_issue r'), db') /\
    docs_issues db' = <[0%nat := r']> (docs_issues sample_db) /\
    docs_reviews db' = docs_reviews sample_db /\ docs_gaps db' = docs_gaps sample_db /\
    Issue.status r' = prepareValue (prop "status" (body resolve_request)) /\
    Issue.resolution_notes r'
      = prepareValue (prop "resolution_notes" (body resolve_request)) /\
    issue_fixed r' = issue_fixed sample_issue.
Proof.
  apply (patch_issue_returns_stored_row "1" 1 resolve_request 20 sample_db
           0%nat sample_issue).
  - by vm_compute.
  - simpl. apply NoDup_singleton.
  - reflexivity.
  - reflexivity.
  - intros s. vm_compute. intros [= <-]. vm_compute. lia.
Defined.

(** ** Creating, updating and listing together *)

Lemma in_order_by_desc {A : Type} (key : A -> Z) (l : list A) (x : A) :
  In x (order_by_desc key l) <-> In x l.
Proof.
  split; apply Permutation_in; [|symmetry]; apply order_by_desc_perm.
Qed.

Lemma in_where_status {A : Type} (st : A -> option string) (rows : list A)
    (q : string) (x : A) :
  In x (List.filter (fun r => sql_eq (st r) (Some q)) rows) <->
  In x rows /\ st x = Some q.
Proof.
  rewrite List.filter_In, sql_eq_decide. by rewrite bool_decide_eq_true.
Qed.

Lemma newest_is_first {A : Type} (key : A -> Z) (old : list A) (row : A) :
  (forall r, In r old -> key r < key row) ->
  exists rest, order_by_desc key (old ++ [row]) = row :: rest.
Proof.
  intros Hold.
  pose proof (order_by_desc_perm key (old ++ [row])) as Hperm.
  pose proof (order_by_desc_sorted key (old ++ [row])) as Hsort.
  destruct (order_by_desc key (old ++ [row])) as [|h rest].
  - apply Permutation_nil in Hperm. by destruct old.
  - assert (Hrow : key row <= key h).
    { apply (sorted_desc_head key h rest Hsort).
      eapply Permutation_in; [symmetry; exact Hperm|].
      apply in_app_iff. right. by left. }
    assert (Hh : In h (old ++ [row]))
      by (eapply Permutation_in; [exact Hperm | by left]).
    apply in_app_iff in Hh as [Hh|[<-|[]]]; [|eauto].
    specialize (Hold h Hh). lia.
Qed.

(** X14.  What a [POST] creates shows up in the default list: after an
    accepted [POST /api/issues] (or [/api/gaps]) the row it returned is in
    the answer of [GET /api/issues] (or [/api/gaps]) without a status
    parameter, and it is the first row there when the open rows already
    stored are all older. *)
Theorem created_row_is_listed :
  forall (req : Request) (now : Z) (db : Db) (res : Response) (db' : Db)
         (req2 : Request),
    query req2 !! "status" = None ->
    (post_api_issues req now db = Ok (res, db') ->
       exists row rows,
         res = reply (Json_issue row) /\
         get_api_issues req2 db' = Ok (reply (Json_issues rows), db') /\
         In row rows /\
         ((forall r, In r (docs_issues db) -> Issue.status r = Some "open" ->
                     Issue.created_at r < now) ->
          exists rest, rows = row :: rest)) /\
    (post_api_gaps req now db = Ok (res, db') ->
       exists row rows,
         res = reply (Json_gap row) /\
         get_api_gaps req2 db' = Ok (reply (Json_gaps rows), db') /\
         In row rows /\
         ((forall r, In r (docs_gaps db) -> Gap.status r = Some "open" ->
                     Gap.created_at r < now) ->
          exists rest, rows = row :: rest)).
Proof.
  intros req now db res db' req2 Hq. split.
  - intros Hpost.
    destruct (post_api_issues_ok req now db res db' Hpost)
      as (row & -> & Hrows & Hstatus & Hcreated & _).
    exists row. eexists. split; [done|].
    unfold get_api_issues, select_issues_where_status. rewrite Hq. simpl.
    split; [reflexivity|]. rewrite Hrows, List.filter_app. simpl.
    rewrite Hstatus. simpl. split.
    + apply in_order_by_desc, in_app_iff. right. by left.
    + intros Hold. apply newest_is_first.
      intros r [Hr Hst]%in_where_status. rewrite Hcreated. by apply Hold.
  - intros Hpost.
    destruct (post_api_gaps_ok req now db res db' Hpost)
      as (row & -> & Hrows & Hstatus & Hcreated & _).
    exists row. eexists. split; [done|].
    unfold get_api_gaps, select_gaps_where_status. rewrite Hq. simpl.
    split; [reflexivity|]. rewrite Hrows, List.filter_app. simpl.
    rewrite Hstatus. simpl. split.
    + apply in_order_by_desc, in_app_iff. right. by left.
    + intros Hold. apply newest_is_first.
      intros r [Hr Hst]%in_where_status. rewrite Hcreated. by apply Hold.
Qed.

Lemma created_row_is_listed_witness :
  exists row rows,
    reply (Json_issue created_issue) = reply (Json_issue row) /\
    get_api_issues blank_request db_with_created_issue
      = Ok (reply (Json_issues rows), db_with_created_issue) /\
    In row rows /\
    ((forall r, In r (docs_issues sample_db) -> Issue.status r = Some "open" ->
                Issue.created_at r < 42) ->
     exists rest, rows = row :: rest).
Proof.
  destruct (created_row_is_listed (body_request issue_body) 42 sample_db
              (reply (Json_issue created_issue)) db_with_created_issue
              blank_request) as [Hissue _]; [reflexivity|].
  apply Hissue. by vm_compute.
Defined.



(** ** More on the stats *)

Lemma decimal_truthy (n : nat) : truthy (decimal n) = true.
Proof.
  destruct (decimal_acc_all_digits n (Z.of_nat n) EmptyString) as [_ Hne];
    [lia | done |].
  unfold decimal. by destruct (decimal_acc (S n) (Z.of_nat n) EmptyString).
Qed.

Lemma max_timestamp_from (l : list Z) :
  forall acc : Z,
    exists m,
      fold_left (fun m t => match m with
                            | Some m' => Some (Z.max m' t)
                            | None => Some t
                            end) l (Some acc) = Some m /\
      (m = acc \/ In m l) /\ acc <= m /\ forall t, In t l -> t <= m.
Proof.
  induction l as [|x l IH]; intros acc; simpl.
  - exists acc. repeat split; [by left | lia | by intros ? []].
  - destruct (IH (Z.max acc x)) as (m & -> & Hm & Hacc & Hall).
    exists m. repeat split; [|lia|].
    + destruct Hm as [->|Hm]; [|by right; right].
      destruct (Z.max_spec acc x) as [[_ ->]|[_ ->]]; [right; by left | by left].
    + intros t [<-|Ht]; [lia | by apply Hall].
Qed.

Lemma max_timestamp_spec (l : list Z) :
  (l = [] /\ max_timestamp l = None) \/
  exists m, max_timestamp l = Some m /\ In m l /\ forall t, In t l -> t <= m.
Proof.
  destruct l as [|x l]; [by left|]. right. unfold max_timestamp. simpl.
  destruct (max_timestamp_from l x) as (m & -> & Hm & Hx & Hall).
  exists m. repeat split.
  - destruct Hm as [->|Hm]; [by left | by right].
  - intros t [<-|Ht]; [done | by apply Hall].
Qed.

(** X16.  The review part of [GET /api/stats]: [total] is the number of
    reviews, and [last_review] is [null] when there is none and otherwise
    the [reviewed_at] of a review that none is more recent than. *)
Theorem stats_count_reviews :
  forall (req : Request) (db : Db),
    exists s,
      get_api_stats req db = Ok (reply (Json_stats s), db) /\
      stats_reviews_total s = Num (Z.of_nat (length (docs_reviews db))) /\
      (docs_reviews db = [] /\ stats_reviews_last_review s = Some None \/
       exists r,
         In r (docs_reviews db) /\
         stats_reviews_last_review s = Some (Some (Review.reviewed_at r)) /\
         forall r', In r' (docs_reviews db) ->
                    Review.reviewed_at r' <= Review.reviewed_at r).
Proof.
  intros req db. eexists. split; [reflexivity|]. simpl. split.
  - rewrite decimal_truthy. apply parseInt_decimal.
  - destruct (max_timestamp_spec (map Review.reviewed_at (docs_reviews db)))
      as [[Hnil ->]|(m & -> & Hm & Hall)].
    + left. split; [|done]. by destruct (docs_reviews db).
    + right. apply in_map_iff in Hm as (r & <- & Hr).
      exists r. repeat split; [done|].
      intros r' Hr'. apply Hall. by apply in_map.
Qed.

Lemma fold_counts_all (rows : list (option string * string)) (k : string) (v : number) :
  forall acc : gmap string number,
    (exists r, In r rows /\ property_key (fst r) = k) ->
    (forall r, In r rows -> property_key (fst r) = k -> parseInt (snd r) = v) ->
    fold_left (fun acc r => <[property_key (fst r) := parseInt (snd r)]> acc) rows acc !! k
      = Some v.
Proof.
  induction rows as [|r rows IH] using rev_ind; intros acc (r0 & Hr0 & Hk) Hall.
  - destruct Hr0.
  - rewrite fold_left_app. simpl.
    destruct (decide (property_key (fst r) = k)) as [Heq|Hne].
    + rewrite <- Heq at 1. rewrite lookup_insert_eq. f_equal.
      apply Hall; [|done]. apply in_app_iff. right. by left.
    + rewrite lookup_insert_ne by done. apply IH.
      * apply in_app_iff in Hr0 as [Hr0|[<-|[]]]; [eauto | done].
      * intros r' Hr'. apply Hall. apply in_app_iff. by left.
Qed.

Lemma count_group_by_status_has (l : list (option string)) (s : option string) :
  In s l -> In (s, decimal (rows_with_status s l)) (count_group_by_status l).
Proof.
  intros Hs. unfold count_group_by_status.
  apply (in_map (fun s => (s, decimal (rows_with_status s l)))).
  apply list_elem_of_In, elem_of_remove_dups, list_elem_of_In, Hs.
Qed.

Lemma reduce_counts_has (l : list (option string)) (s : string) :
  In (Some s) l -> (s = "null" -> ~ In None l) ->
  reduce_counts (count_group_by_status l) !! s
    = Some (Num (Z.of_nat (rows_with_status (Some s) l))).
Proof.
  intros Hs Hnull. unfold reduce_counts. apply fold_counts_all.
  - exists (Some s, decimal (rows_with_status (Some s) l)).
    split; [by apply count_group_by_status_has | done].
  - intros r Hr Hk. apply count_group_by_status_in in Hr as [Hin ->].
    rewrite parseInt_decimal. destruct (fst r) as [s'|]; simpl in Hk.
    + by subst.
    + subst s. by destruct Hnull.
Qed.

(** X17.  Every status in use is reported with its count: a status that
    at least one issue (or gap) has is a key of [issues] (or [gaps]) in the
    answer of [GET /api/stats], and the value is the number of rows with
    that status; the one exception is the status ["null"] while some row
    has no status at all, since both are written under the key ["null"]. *)
Theorem stats_count_every_status :
  forall (req : Request) (db : Db) (status : string),
    (status = "null" -> forall r, In r (docs_issues db) -> Issue.status r <> None) ->
    (status = "null" -> forall r, In r (docs_gaps db) -> Gap.status r <> None) ->
    exists s,
      get_api_stats req db = Ok (reply (Json_stats s), db) /\
      ((exists r, In r (docs_issues db) /\ Issue.status r = Some status) ->
       stats_issues s !! status
         = Some (Num (Z.of_nat (length (List.filter
                   (fun r => bool_decide (Issue.status r = Some status))
                   (docs_issues db)))))) /\
      ((exists r, In r (docs_gaps db) /\ Gap.status r = Some status) ->
       stats_gaps s !! status
         = Some (Num (Z.of_nat (length (List.filter
                   (fun r => bool_decide (Gap.status r = Some status))
                   (docs_gaps db)))))).
Proof.
  intros req db status Hi Hg. eexists. split; [reflexivity|]. simpl.
  assert (Hcount : forall (A : Type) (st : A -> option string) (rows : list A),
            rows_with_status (Some status) (map st rows)
              = length (List.filter (fun r => bool_decide (st r = Some status)) rows)).
  { intros A st rows. unfold rows_with_status.
    induction rows as [|x rows IH]; simpl; [done|].
    destruct (bool_decide (st x = Some status)); simpl; by rewrite IH. }
  split.
  - intros (r & Hr & Hst). rewrite reduce_counts_has.
    + by rewrite Hcount.
    + rewrite <- Hst. by apply in_map.
    + intros Hnull (r0 & Hr0 & Hin)%in_map_iff. by apply (Hi Hnull r0).
  - intros (r & Hr & Hst). rewrite reduce_counts_has.
    + by rewrite Hcount.
    + rewrite <- Hst. by apply in_map.
    + intros Hnull (r0 & Hr0 & Hin)%in_map_iff. by apply (Hg Hnull r0).
Qed.

Lemma stats_count_every_status_witness :
  exists s,
    get_api_stats blank_request db_with_created_issue
      = Ok (reply (Json_stats s), db_with_created_issue) /\
    stats_issues s !! "open" = Some (Num 2).
Proof.
  destruct (stats_count_every_status blank_request db_with_created_issue "open")
    as (s & Hs & Hissues & _); [discriminate | discriminate |].
  exists s. split; [exact Hs|].
  apply Hissues. exists sample_issue. split; [by left | reflexivity].
Defined.

(** X18.  A review just posted is what the slug route finds: after an
    accepted [POST /api/reviews] with slug [s], [GET /api/reviews/s] never
    answers [null]; it answers a review of [s] dated now or later, and the
    posted review itself when the reviews of [s] already stored are all
    older. *)
Theorem posted_review_is_found :
  forall (req : Request) (now : Z) (db : Db) (res : Response) (db' : Db)
         (req2 : Request),
    post_api_reviews req now db = Ok (res, db') ->
    exists row latest,
      res = reply (Json_review row) /\
      get_api_reviews_slug (Review.doc_slug row) req2 db'
        = Ok (reply (Json_review latest), db') /\
      Review.doc_slug latest = Review.doc_slug row /\
      now <= Review.reviewed_at latest /\
      ((forall r, In r (docs_reviews db) ->
                  Review.doc_slug r = Review.doc_slug row ->
                  Review.reviewed_at r < now) ->
       latest = row).
Proof.
  intros req now db res db' req2 Hpost.
  destruct (post_api_reviews_ok req now db res db' Hpost)
    as (row & -> & Hrows & Hat & _).
  exists row. unfold get_api_reviews_slug, select_latest_review.
  rewrite Hrows, List.filter_app. simpl. rewrite String.eqb_refl.
  set (old := List.filter _ (docs_reviews db)).
  assert (Hold : forall r, In r old <->
                           In r (docs_reviews db) /\
                           Review.doc_slug r = Review.doc_slug row).
  { intros r. unfold old. rewrite List.filter_In. simpl. by rewrite String.eqb_eq. }
  clearbody old.
  pose proof (order_by_desc_perm Review.reviewed_at (old ++ [row])) as Hperm.
  pose proof (order_by_desc_sorted Review.reviewed_at (old ++ [row])) as Hsort.
  pose proof (newest_is_first Review.reviewed_at old row) as Hnewest.
  destruct (order_by_desc Review.reviewed_at (old ++ [row])) as [|latest rest].
  - apply Permutation_nil in Hperm. destruct old; discriminate Hperm.
  - exists latest. simpl. split; [done|]. split; [done|].
    assert (Hin : In latest (old ++ [row]))
      by (eapply Permutation_in; [exact Hperm | by left]).
    split; [|split].
    + apply in_app_iff in Hin as [Hin|[<-|[]]]; [|done].
      apply Hold in Hin as [_ Hin]. exact Hin.
    + rewrite <- Hat. apply (sorted_desc_head Review.reviewed_at latest rest Hsort).
      eapply Permutation_in; [symmetry; exact Hperm|].
      apply in_app_iff. right. by left.
    + intros Holder. destruct Hnewest as [rest' Heq].
      * intros r Hr. apply Hold in Hr as [Hr Hslug]. rewrite Hat. by apply Holder.
      * by injection Heq.
Qed.

Lemma posted_review_is_found_witness :
  exists row latest,
    reply (Json_review created_review) = reply (Json_review row) /\
    get_api_reviews_slug (Review.doc_slug row) blank_request db_with_created_review
      = Ok (reply (Json_review latest), db_with_created_review) /\
    Review.doc_slug latest = Review.doc_slug row /\
    42 <= Review.reviewed_at latest /\
    ((forall r, In r (docs_reviews empty_db) ->
                Review.doc_slug r = Review.doc_slug row ->
                Review.reviewed_at r < 42) ->
     latest = row).
Proof.
  apply (posted_review_is_found (body_request review_body) 42 empty_db
           (reply (Json_review created_review)) db_with_created_review blank_request).
  by vm_compute.
Defined.

(** ** The port *)

(** X19.  When start-up gets as far as listening, it listens once, on the
    port named by [PORT], or on 3000 when [PORT] is unset or empty. *)
Theorem listens_on_port_or_3000 :
  forall (Server : Type) (create : Table -> Server -> Result Server)
         (env : Env) (s : Server) (port : string),
    In (Listening port) (events (snd (boot Server create env s))) ->
    port = match PORT env with
           | Some p => if String.eqb p "" then "3000" else p
           | None => "3000"
           end /\
    length (List.filter (fun e => match e with Listening _ => true | _ => false end)
                        (events (snd (boot Server create env s)))) = 1%nat.
Proof.
  intros Server create env s port.
  destruct (boot_cases create env s)
    as [(s1 & s2 & s3 & _ & _ & _ & _ & ->)|(_ & t & done & -> & _)].
  - simpl. intros [H|[H|[H|[H|[H|[H|[]]]]]]]; try discriminate H.
    injection H as <-. split; [|done].
    unfold or_default, truthy. destruct (PORT env) as [p|]; [|done].
    by destruct (String.eqb p "").
  - intros H. by apply no_listening_in_failure in H.
Qed.

Lemma listens_on_port_or_3000_witness :
  "3000" = "3000" /\
  length (List.filter (fun e => match e with Listening _ => true | _ => false end)
            (events (snd (boot unit (fun _ s => Ok s)
                               {| APP_TOKEN := None; PORT := Some "" |} tt)))) = 1%nat.
Proof.
  apply (listens_on_port_or_3000 unit (fun _ s => Ok s)
           {| APP_TOKEN := None; PORT := Some "" |} tt "3000").
  simpl. do 4 right. by left.
Defined.
